(** * Two-stage market clearing with redispatch

    A shallow embedding of [redispatch/electricity_redispatch.py]: the
    class [RedispatchModel] solves a nodal network model, derives a zonal
    market model from it by collapsing buses into bidding zones, and builds
    a redispatch model in which every generator is split into the market
    dispatch (fixed), a "ramp up" and a "ramp down" generator.

    The program is written against pandas and PyPSA.  Only what the source
    touches is modelled:
    - a float64 cell is an exact rational or one of the IEEE special values
      (rounding is not modelled, the special values are);
    - a [DataFrame] of components is a table: a list of rows keyed by the
      component name (the index), in index order;
    - a time-dependent [DataFrame] is a table of columns, one per component,
      each a function of the snapshot number;
    - [Network.optimize], [export_to_csv_folder] and the file system are
      external: the solver is a variable of the section that embeds the
      pipeline, and each call is recorded in a trace. *)

From Stdlib Require Import Ascii String List Bool ZArith QArith Qminmax Lia Lqa.
Import ListNotations.

Set Implicit Arguments.

(* ------------------------------------------------------------------ *)
(** ** float64 cells *)

Module Float.

(** A cell of a float column.  [NaN] is pandas' missing value. *)
Inductive t : Type :=
| Fin (q : Q)
| PInf
| NInf
| NaN.

(** The infinity (or NaN) that a non-zero (or zero) finite value turns
    into when it is divided by zero or multiplied by +inf. *)
Definition inf_of_sign (c : comparison) : t :=
  match c with
  | Gt => PInf
  | Lt => NInf
  | Eq => NaN
  end.

Definition neg (x : t) : t :=
  match x with
  | Fin q => Fin (- q)
  | PInf => NInf
  | NInf => PInf
  | NaN => NaN
  end.

Definition add (x y : t) : t :=
  match x, y with
  | NaN, _ | _, NaN => NaN
  | Fin a, Fin b => Fin (a + b)
  | PInf, NInf | NInf, PInf => NaN
  | PInf, _ | _, PInf => PInf
  | NInf, _ | _, NInf => NInf
  end.

Definition sub (x y : t) : t := add x (neg y).

Definition mul (x y : t) : t :=
  match x, y with
  | NaN, _ | _, NaN => NaN
  | Fin a, Fin b => Fin (a * b)
  | Fin a, PInf | PInf, Fin a => inf_of_sign (a ?= 0)
  | Fin a, NInf | NInf, Fin a => inf_of_sign (0 ?= a)
  | PInf, PInf | NInf, NInf => PInf
  | PInf, NInf | NInf, PInf => NInf
  end.

(** numpy's true division: no exception, [x / 0] is an infinity of the
    sign of [x] and [0 / 0] is NaN.  (The sign of a zero divisor is not
    tracked: a stored zero is +0.0.) *)
Definition div (x y : t) : t :=
  match x, y with
  | NaN, _ | _, NaN => NaN
  | Fin a, Fin b =>
      if Qeq_bool b 0 then inf_of_sign (a ?= 0) else Fin (a / b)
  | Fin _, (PInf | NInf) => Fin 0
  | PInf, Fin b => if Qlt_le_dec b 0 then NInf else PInf
  | NInf, Fin b => if Qlt_le_dec b 0 then PInf else NInf
  | (PInf | NInf), (PInf | NInf) => NaN
  end.

(** [.clip(0)]: a lower bound of 0; NaN stays NaN. *)
Definition clip0 (x : t) : t :=
  match x with
  | Fin q => if Qlt_le_dec q 0 then Fin 0 else Fin q
  | PInf => PInf
  | NInf => Fin 0
  | NaN => NaN
  end.

(** [.fillna(0)]: only NaN is a missing value, the infinities are not. *)
Definition fillna0 (x : t) : t :=
  match x with
  | NaN => Fin 0
  | _ => x
  end.

(** [0 <= x] and [x <= 0] as floats compare: false on NaN. *)
Definition nonneg (x : t) : Prop :=
  match x with
  | Fin q => 0 <= q
  | PInf => True
  | NInf | NaN => False
  end.

Definition nonpos (x : t) : Prop :=
  match x with
  | Fin q => q <= 0
  | NInf => True
  | PInf | NaN => False
  end.

End Float.

(* ------------------------------------------------------------------ *)
(** ** Tables: a pandas index with one row (or column) per label *)

Section Tables.

Variable A : Type.

Definition Table := list (string * A).

Definition index (tbl : Table) : list string := map fst tbl.

(** [tbl.loc[k]], the first row labelled [k]. *)
Fixpoint loc (tbl : Table) (k : string) : option A :=
  match tbl with
  | [] => None
  | (k', a) :: rest => if String.eqb k k' then Some a else loc rest k
  end.

End Tables.

Arguments loc {A} tbl k.
Arguments index {A} tbl.

Definition mem (k : string) (ks : list string) : bool :=
  existsb (String.eqb k) ks.

(** [Index.is_unique] *)
Fixpoint is_unique (ks : list string) : bool :=
  match ks with
  | [] => true
  | k :: rest => negb (mem k rest) && is_unique rest
  end.

(** [Series.unique()] on an object column: first occurrences, in order;
    NaN is kept as a value of its own. *)
Definition opt_eqb (a b : option string) : bool :=
  match a, b with
  | Some x, Some y => String.eqb x y
  | None, None => true
  | _, _ => false
  end.

Fixpoint unique_values (seen vs : list (option string)) : list (option string) :=
  match vs with
  | [] => []
  | v :: rest =>
      if existsb (opt_eqb v) seen then unique_values seen rest
      else v :: unique_values (v :: seen) rest
  end.

Definition unique (vs : list (option string)) : list (option string) :=
  unique_values [] vs.

(** Row-wise map that keeps the index. *)
Definition mapi {A B : Type} (f : string -> A -> B) (tbl : Table A) : Table B :=
  map (fun r => (fst r, f (fst r) (snd r))) tbl.

(** [df.index = df.index.map(f)] / [df.columns = df.columns.map(f)] *)
Definition rename {A : Type} (f : string -> string) (tbl : Table A) : Table A :=
  map (fun r => (f (fst r), snd r)) tbl.

(** [Network.mremove(class_name, names)]: drop the rows labelled by [names]. *)
Definition mremove {A : Type} (tbl : Table A) (names : list string) : Table A :=
  filter (fun r => negb (mem (fst r) names)) tbl.

(** [Network.madd(class_name, names, ...)]: append the new rows.  The index
    of a component table is unique; a batch whose names clash with the
    table, or with each other, is rejected. *)
Definition madd {A : Type} (tbl rows : Table A) : option (Table A) :=
  if is_unique (index tbl ++ index rows) then Some (tbl ++ rows) else None.

(** Time-dependent data ([generators_t.p] and the like): one column per
    component, a cell per snapshot.  All frames of a network share its
    snapshots. *)
Definition Frame := Table (nat -> Float.t).

(** A cell of a frame after alignment: NaN where the label is missing. *)
Definition cell (df : Frame) (c : string) (t : nat) : Float.t :=
  match loc df c with
  | Some col => col t
  | None => Float.NaN
  end.

Definition cell_series (s : Table Float.t) (c : string) : Float.t :=
  match loc s c with
  | Some v => v
  | None => Float.NaN
  end.

(** Labels of an aligned binary operation: the union of both. *)
Definition union_index (l1 l2 : list string) : list string :=
  l1 ++ filter (fun c => negb (mem c l1)) l2.

(** [df1 op df2] on frames with the same snapshots. *)
Definition frame_op (op : Float.t -> Float.t -> Float.t) (df1 df2 : Frame) : Frame :=
  map (fun c => (c, fun t => op (cell df1 c t) (cell df2 c t)))
      (union_index (index df1) (index df2)).

(** [df op s] for a series [s] indexed like the columns of [df]. *)
Definition frame_op_series (op : Float.t -> Float.t -> Float.t)
    (df : Frame) (s : Table Float.t) : Frame :=
  map (fun c => (c, fun t => op (cell df c t) (cell_series s c)))
      (union_index (index df) (index s)).

(** Cell-wise unary operation ([-df], [.clip(0)], [.fillna(0)]). *)
Definition frame_map (f : Float.t -> Float.t) (df : Frame) : Frame :=
  mapi (fun _ col t => f (col t)) df.

(** [import_series_from_dataframe]: the columns of [new] are written into
    the frame, those already there are overwritten, the others appended. *)
Definition import_series (pnl new : Frame) : Frame :=
  mapi (fun c col => match loc new c with Some col' => col' | None => col end) pnl
  ++ filter (fun r => negb (mem (fst r) (index pnl))) new.

(* ------------------------------------------------------------------ *)
(** ** The network *)

(** A reference to a bus.  It is a name; after [Series.map] through a zone
    mapping that has no value for it, it is NaN ([None]). *)
Definition BusRef := option string.

Record Bus := mkBus {
  country : option string;   (* the zone tag; [None] when unset (NaN) *)
  v_nom : Q
}.

Record Generator := mkGenerator {
  bus : BusRef;
  p_nom : Q;
  p_min_pu : Q;              (* static bounds, as fractions of [p_nom] *)
  p_max_pu : Q;
  marginal_cost : Q
}.

(** Loads, storage units, stores and shunt impedances: attached to one bus. *)
Record OnePort := mkOnePort {
  op_bus : BusRef;
  op_size : Q
}.

(** Lines, links and transformers. *)
Record Branch := mkBranch {
  bus0 : BusRef;
  bus1 : BusRef;
  s_nom : Q
}.

Record GeneratorsT := mkGeneratorsT {
  t_p_min_pu : Frame;
  t_p_max_pu : Frame;
  t_p : Frame                (* the dispatch, filled in by a solve *)
}.

Record Network := mkNetwork {
  buses : Table Bus;
  generators : Table Generator;
  loads : Table OnePort;
  storage_units : Table OnePort;
  stores : Table OnePort;
  shunt_impedances : Table OnePort;
  lines : Table Branch;
  links : Table Branch;
  transformers : Table Branch;
  generators_t : GeneratorsT
}.

(** [Network.branch_components] *)
Inductive BranchClass := Line | Link | Transformer.

Definition branch_table (c : BranchClass) (n : Network) : Table Branch :=
  match c with
  | Line => lines n
  | Link => links n
  | Transformer => transformers n
  end.

(** PyPSA's defaults for attributes that [madd] is not given. *)
Definition default_bus : Bus := mkBus None 1.
Definition default_p_min_pu : Q := 0.
Definition default_p_max_pu : Q := 1.

(** [get_switchable_as_dense(n, "Generator", attr)]: for every generator
    the column of [generators_t.attr] when there is one, the static value
    at every snapshot otherwise. *)
Definition as_dense (static : Generator -> Q) (pnl : GeneratorsT -> Frame)
    (n : Network) : Frame :=
  mapi (fun g row =>
          match loc (pnl (generators_t n)) g with
          | Some col => col
          | None => fun _ => Float.Fin (static row)
          end)
       (generators n).

(** [n.generators.p_nom] *)
Definition p_nom_series (n : Network) : Table Float.t :=
  mapi (fun _ row => Float.Fin (p_nom row)) (generators n).

(* ------------------------------------------------------------------ *)
(** ** Bidding-zone aggregation ([run_market_model], lines 70-83) *)

(** [zones = self.network_model.buses.country] *)
Definition zones_of (n : Network) : Table (option string) :=
  mapi (fun _ b => country b) (buses n).

(** One cell of [column.map(zones)]: a label that [zones] does not have,
    or has no value for, becomes NaN; no error is raised. *)
Definition map_zone (zones : Table (option string)) (b : BusRef) : BusRef :=
  match b with
  | Some k =>
      match loc zones k with
      | Some z => z
      | None => None
      end
  | None => None
  end.

(** [bus0 == bus1] on two cells of object columns: NaN equals nothing. *)
Definition ref_eqb (a b : BusRef) : bool :=
  match a, b with
  | Some x, Some y => String.eqb x y
  | _, _ => false
  end.

Definition rezone_generator (zones : Table (option string)) (g : Generator) : Generator :=
  mkGenerator (map_zone zones (bus g)) (p_nom g) (p_min_pu g) (p_max_pu g)
              (marginal_cost g).

Definition rezone_one_port (zones : Table (option string)) (c : OnePort) : OnePort :=
  mkOnePort (map_zone zones (op_bus c)) (op_size c).

Definition rezone_branch (zones : Table (option string)) (b : Branch) : Branch :=
  mkBranch (map_zone zones (bus0 b)) (map_zone zones (bus1 b)) (s_nom b).

Definition internal (r : string * Branch) : bool :=
  ref_eqb (bus0 (snd r)) (bus1 (snd r)).

(** Lines 76-79 for one branch class: rewrite both ends, then remove by
    name the rows whose ends are equal. *)
Definition aggregate_branches (zones : Table (option string))
    (df : Table Branch) : Table Branch :=
  let df' := mapi (fun _ b => rezone_branch zones b) df in
  mremove df' (index (filter internal df')).

(** Lines 71-79: every one-port and every branch component. *)
Definition aggregate_components (zones : Table (option string)) (n : Network) : Network :=
  mkNetwork (buses n)
            (mapi (fun _ g => rezone_generator zones g) (generators n))
            (mapi (fun _ c => rezone_one_port zones c) (loads n))
            (mapi (fun _ c => rezone_one_port zones c) (storage_units n))
            (mapi (fun _ c => rezone_one_port zones c) (stores n))
            (mapi (fun _ c => rezone_one_port zones c) (shunt_impedances n))
            (aggregate_branches zones (lines n))
            (aggregate_branches zones (links n))
            (aggregate_branches zones (transformers n))
            (generators_t n).

(** The name [madd] gives a bus made from a zone value: names are turned
    into strings, NaN into ["nan"]. *)
Definition bus_label (z : option string) : string :=
  match z with
  | Some s => s
  | None => "nan"%string
  end.

(** [zones.unique()] as new rows of the bus table. *)
Definition zone_buses (zones : Table (option string)) : Table Bus :=
  map (fun z => (bus_label z, default_bus)) (unique (map snd zones)).

(** Lines 82-83: all buses are removed, one bus per distinct zone value is
    added. *)
Definition rebuild_buses (zones : Table (option string)) (n : Network) : option Network :=
  match madd (mremove (buses n) (index (buses n))) (zone_buses zones) with
  | Some bs =>
      Some (mkNetwork bs (generators n) (loads n) (storage_units n) (stores n)
                      (shunt_impedances n) (lines n) (links n) (transformers n)
                      (generators_t n))
  | None => None
  end.

(** Lines 70-83 as one step. *)
Definition aggregate_bidding_zones (network_model market_model : Network) : option Network :=
  let zones := zones_of network_model in
  rebuild_buses zones (aggregate_components zones market_model).

(* ------------------------------------------------------------------ *)
(** ** Redispatch generator splitting ([run_redispatch_model], lines 99-120) *)

Definition ramp_up (x : string) : string := (x ++ " ramp up")%string.
Definition ramp_down (x : string) : string := (x ++ " ramp down")%string.

(** Line 99:
    [p = (market.generators_t.p / market.generators.p_nom).fillna(0)] *)
Definition realized_ratio (market : Network) : Frame :=
  frame_map Float.fillna0
    (frame_op_series Float.div (t_p (generators_t market)) (p_nom_series market)).

(** Line 113, before the columns are renamed. *)
Definition up (market : Network) : Frame :=
  frame_op_series Float.div
    (frame_map Float.clip0
       (frame_op Float.sub
          (frame_op_series Float.mul (as_dense p_max_pu t_p_max_pu market)
                           (p_nom_series market))
          (t_p (generators_t market))))
    (p_nom_series market).

(** Line 114, before the columns are renamed. *)
Definition down (market : Network) : Frame :=
  frame_op_series Float.div
    (frame_map Float.neg (t_p (generators_t market)))
    (p_nom_series market).

(** Line 119: the rows of [g_up] as [madd] receives them.  [p_max_pu] is
    dropped from the static attributes (it is given as a frame, so the
    static value is the default); every other column, [p_min_pu] included,
    is the original's. *)
Definition g_up (gens : Table Generator) : Table Generator :=
  rename ramp_up
    (mapi (fun _ g => mkGenerator (bus g) (p_nom g) (p_min_pu g) default_p_max_pu
                                  (marginal_cost g)) gens).

(** Line 120: the rows of [g_down].  [p_min_pu] and [p_max_pu] are dropped;
    [p_min_pu] is given as a frame, [p_max_pu] as the scalar 0. *)
Definition g_down (gens : Table Generator) : Table Generator :=
  rename ramp_down
    (mapi (fun _ g => mkGenerator (bus g) (p_nom g) default_p_min_pu 0
                                  (marginal_cost g)) gens).

Definition with_generators (n : Network) (gens : Table Generator) (gt : GeneratorsT) : Network :=
  mkNetwork (buses n) gens (loads n) (storage_units n) (stores n)
            (shunt_impedances n) (lines n) (links n) (transformers n) gt.

(** Lines 99-120.  [redispatch] is the fresh copy of the input model.  The
    two assignments of [p] store one frame twice, but [madd] writes its
    series into a re-indexed copy, so the frames are values here. *)
Definition split_generators (market redispatch : Network) : option Network :=
  let p := realized_ratio market in
  let gens := generators redispatch in
  match madd gens (g_up gens) with
  | None => None
  | Some gens1 =>
      let p_max := import_series p (rename ramp_up (up market)) in
      match madd gens1 (g_down gens) with
      | None => None
      | Some gens2 =>
          let p_min := import_series p (rename ramp_down (down market)) in
          Some (with_generators redispatch gens2
                  (mkGeneratorsT p_min p_max (t_p (generators_t redispatch))))
      end
  end.

(** The bounds the solver sees for generator [g] at snapshot [t]. *)
Definition p_min_pu_at (n : Network) (g : string) (t : nat) : option Float.t :=
  option_map (fun col => col t) (loc (as_dense p_min_pu t_p_min_pu n) g).

Definition p_max_pu_at (n : Network) (g : string) (t : nat) : option Float.t :=
  option_map (fun col => col t) (loc (as_dense p_max_pu t_p_max_pu n) g).

(* ------------------------------------------------------------------ *)
(** ** Solver selection ([set_solver]) *)

Inductive OptValue :=
| OInt (z : Z)
| OFloat (q : Q).

(** The [solver_options] mapping. *)
Definition SolverOptions := list (string * OptValue).

(** What a caller may pass as [solver_settings]: the source compares it
    with the string ["default"] and nothing else. *)
Inductive PyValue :=
| PyStr (s : string)
| PyDict (d : SolverOptions)
| PyNone.

Definition py_eq_str (v : PyValue) (s : string) : bool :=
  match v with
  | PyStr s' => String.eqb s' s
  | _ => false
  end.

(** Line 37. *)
Definition gurobi_default : SolverOptions :=
  [ ("Crossover", OInt 0); ("Threads", OInt 4); ("Method", OInt 2);
    ("BarConvTol", OFloat (1 # 1000000)); ("Seed", OInt 123);
    ("AggFill", OInt 0); ("PreDual", OInt 0);
    ("GURO_PAR_BARDENSETHRESH", OInt 200) ]%string.

(** Lines 31-37: the pair [(self.solver, self.solver_settings)]. *)
Definition set_solver (solver : string) (settings : PyValue) : string * SolverOptions :=
  (solver,
   if String.eqb solver "gurobi"
   then if py_eq_str settings "default" then gurobi_default else []
   else []).

(* ------------------------------------------------------------------ *)
(** ** The pipeline ([__init__] and the three [run_*] methods) *)

Inductive Stage := NetworkModelStage | MarketModelStage | RedispatchModelStage.

(** The [model_name] each stage exports under. *)
Definition stage_name (s : Stage) : string :=
  match s with
  | NetworkModelStage => "network_model"
  | MarketModelStage => "market_model"
  | RedispatchModelStage => "redispatch_model"
  end.

(** Calls that leave the program, in the order they are made. *)
Inductive Event :=
| Optimize (s : Stage) (solver_name : string) (solver_options : SolverOptions)
| Export (model_name : string).

(** What [Network.optimize] does.  It returns the pair (status, termination
    condition): on status ok the solution is written into the network, on
    any other status (an infeasible problem among them) a warning is logged
    and the network is left as it was.  It raises only when the solver
    itself cannot be run. *)
Inductive SolveOutcome :=
| Raises
| Warning (condition : string)
| Ok (p : string -> nat -> Q).

Inductive Exn :=
| AssertionError (msg : string)
| SolverError (s : Stage)
| NotUnique (class_name : string).

(** The attributes of [self]; the three models exist once assigned. *)
Record Self := mkSelf {
  model : Network;
  solver : string;
  solver_settings : SolverOptions;
  network_model : option Network;
  market_model : option Network;
  redispatch_model : option Network
}.

Definition set_network_model (n : Network) (self : Self) : Self :=
  mkSelf (model self) (solver self) (solver_settings self)
         (Some n) (market_model self) (redispatch_model self).

Definition set_market_model (n : Network) (self : Self) : Self :=
  mkSelf (model self) (solver self) (solver_settings self)
         (network_model self) (Some n) (redispatch_model self).

Definition set_redispatch_model (n : Network) (self : Self) : Self :=
  mkSelf (model self) (solver self) (solver_settings self)
         (network_model self) (market_model self) (Some n).

(** A method of the class: it reads and writes [self], appends to the
    trace of external calls, and returns or raises. *)
Definition M (A : Type) : Type := Self * list Event -> (Exn + A) * (Self * list Event).

Definition ret {A : Type} (a : A) : M A := fun st => (inr a, st).

Definition bind {A B : Type} (m : M A) (k : A -> M B) : M B :=
  fun st =>
    match m st with
    | (inl e, st') => (inl e, st')
    | (inr a, st') => k a st'
    end.

Definition raise {A : Type} (e : Exn) : M A := fun st => (inl e, st).

Definition get_self : M Self := fun st => (inr (fst st), st).

Definition modify (f : Self -> Self) : M unit := fun st => (inr tt, (f (fst st), snd st)).

Definition emit (ev : Event) : M unit := fun st => (inr tt, (fst st, snd st ++ [ev])).

Declare Scope pipeline_scope.
Delimit Scope pipeline_scope with pipeline.
Notation "x <- c1 ;; c2" := (bind c1 (fun x => c2))
  (at level 61, c1 at next level, right associativity) : pipeline_scope.
Notation "c1 ;; c2" := (bind c1 (fun _ => c2))
  (at level 61, right associativity) : pipeline_scope.

(** The solution written into the network by a successful solve: a
    dispatch for every generator of the network at every snapshot. *)
Definition assign_solution (n : Network) (p : string -> nat -> Q) : Network :=
  with_generators n (generators n)
    (mkGeneratorsT (t_p_min_pu (generators_t n)) (t_p_max_pu (generators_t n))
                   (mapi (fun g _ t => Float.Fin (p g t)) (generators n))).

(** The network after [n.optimize(...)], when the call returns: solved on
    status ok, as it was on a warning.  [None] when the call raises. *)
Definition after_solve (n : Network) (o : SolveOutcome) : option Network :=
  match o with
  | Raises => None
  | Warning _ => Some n
  | Ok p => Some (assign_solution n p)
  end.

Section Pipeline.

(** [Network.optimize(solver_name=..., solver_options=...)] *)
Variable optimize : string -> SolverOptions -> Network -> SolveOutcome.

Open Scope pipeline_scope.

(** [n.optimize(solver_name=self.solver, solver_options=self.solver_settings)]
    at stage [s]; the value returned by [optimize] is not looked at. *)
Definition call_optimize (s : Stage) (n : Network) : M Network :=
  self <- get_self ;;
  emit (Optimize s (solver self) (solver_settings self)) ;;
  match after_solve n (optimize (solver self) (solver_settings self) n) with
  | None => raise (SolverError s)
  | Some n' => ret n'
  end.

(** Lines 48-55; the directories are the file system's business. *)
Definition export_model_results (model_name : string) : M unit :=
  emit (Export model_name).

(** Lines 58-62. *)
Definition run_network_model : M unit :=
  self <- get_self ;;
  modify (set_network_model (model self)) ;;
  n <- call_optimize NetworkModelStage (model self) ;;
  modify (set_network_model n) ;;
  export_model_results "network_model".

(** Lines 64-87. *)
Definition run_market_model : M unit :=
  self <- get_self ;;
  match network_model self with
  | None => raise (AssertionError "run network model first")
  | Some nm =>
      modify (set_market_model (model self)) ;;
      let zones := zones_of nm in
      let m1 := aggregate_components zones (model self) in
      modify (set_market_model m1) ;;
      match rebuild_buses zones m1 with
      | None => raise (NotUnique "Bus")
      | Some m2 =>
          modify (set_market_model m2) ;;
          m3 <- call_optimize MarketModelStage m2 ;;
          modify (set_market_model m3) ;;
          export_model_results "market_model"
      end
  end.

(** Lines 92-124. *)
Definition run_redispatch_model : M unit :=
  self <- get_self ;;
  match network_model self with
  | None => raise (AssertionError "run network model first")
  | Some _ =>
      match market_model self with
      | None => raise (AssertionError "run market model first")
      | Some market =>
          modify (set_redispatch_model (model self)) ;;
          match split_generators market (model self) with
          | None => raise (NotUnique "Generator")
          | Some r1 =>
              modify (set_redispatch_model r1) ;;
              r2 <- call_optimize RedispatchModelStage r1 ;;
              modify (set_redispatch_model r2) ;;
              export_model_results "redispatch_model"
          end
      end
  end.

(** Lines 11-18.  [model] is the network that [set_model] loads. *)
Definition init (model : Network) (solver : string) (solver_settings : PyValue)
    : (Exn + unit) * (Self * list Event) :=
  let s := set_solver solver solver_settings in
  (run_network_model ;; run_market_model ;; run_redispatch_model)
    (mkSelf model (fst s) (snd s) None None None, []).

Definition trace (r : (Exn + unit) * (Self * list Event)) : list Event := snd (snd r).
Definition outcome (r : (Exn + unit) * (Self * list Event)) : Exn + unit := fst r.
Definition final (r : (Exn + unit) * (Self * list Event)) : Self := fst (snd r).

End Pipeline.

(* ------------------------------------------------------------------ *)
(** ** Well-formed inputs *)

(** The names the splitter gives to the generators of the redispatch
    model: the originals, then the ramp-up and the ramp-down copies. *)
Definition split_names (idx : list string) : list string :=
  idx ++ map ramp_up idx ++ map ramp_down idx.

(** No generator is named like the ramp-up or ramp-down copy of another
    (and no two alike): [madd] accepts both batches. *)
Definition splittable (n : Network) : Prop :=
  is_unique (split_names (index (generators n))) = true.

(** The market model and the redispatch model are copies of one model:
    they have the same generators. *)
Definition same_generators (market redispatch : Network) : Prop :=
  index (generators market) = index (generators redispatch).

(** The dispatch of a network has columns for its generators only. *)
Definition dispatch_aligned (n : Network) : Prop :=
  incl (index (t_p (generators_t n))) (index (generators n)).

(** The network that the splitter builds when [madd] accepts the names. *)
Definition split_result (market redispatch : Network) : Network :=
  let p := realized_ratio market in
  let gens := generators redispatch in
  with_generators redispatch (gens ++ g_up gens ++ g_down gens)
    (mkGeneratorsT (import_series p (rename ramp_down (down market)))
                   (import_series p (rename ramp_up (up market)))
                   (t_p (generators_t redispatch))).

Definition valid_ref (n : Network) (r : BusRef) : bool :=
  match r with
  | Some k => mem k (index (buses n))
  | None => false
  end.

(** A branch table has a unique index and both ends of every branch are
    buses of the network. *)
Definition wf_branches (n : Network) (tbl : Table Branch) : bool :=
  is_unique (index tbl)
  && forallb (fun r => valid_ref n (bus0 (snd r)) && valid_ref n (bus1 (snd r))) tbl.

Definition wf_topology (n : Network) : bool :=
  is_unique (index (buses n))
  && wf_branches n (lines n) && wf_branches n (links n)
  && wf_branches n (transformers n).

(** The network is already expressed in zone buses: the zone of every bus
    is the bus itself. *)
Definition zone_is_bus (n : Network) : bool :=
  forallb (fun r => opt_eqb (country (snd r)) (Some (fst r))) (buses n).

(** Both ends of the branch are mapped, and to the same zone. *)
Definition same_zone (zones : Table (option string)) (r : string * Branch) : bool :=
  ref_eqb (map_zone zones (bus0 (snd r))) (map_zone zones (bus1 (snd r))).

(** The calls of one stage that runs to its end. *)
Definition stage_events (sv : string) (opts : SolverOptions) (s : Stage) : list Event :=
  [Optimize s sv opts; Export (stage_name s)].

(** The calls made before stage [s] begins, when nothing has failed. *)
Definition events_before (sv : string) (opts : SolverOptions) (s : Stage) : list Event :=
  match s with
  | NetworkModelStage => []
  | MarketModelStage => stage_events sv opts NetworkModelStage
  | RedispatchModelStage =>
      stage_events sv opts NetworkModelStage ++ stage_events sv opts MarketModelStage
  end.

(* ------------------------------------------------------------------ *)
(** ** Sample networks *)

Module Sample.

Open Scope string_scope.

Definition gens : Table Generator :=
  [ ("wind",  mkGenerator (Some "DE0") 100 0 1 0);
    ("ocgt",  mkGenerator (Some "DE1") 0 0 1 50);
    ("solar", mkGenerator (Some "FR0") 0 0 1 0);
    ("coal",  mkGenerator (Some "FR0") 200 (2 # 5) 1 30);
    ("pump",  mkGenerator (Some "DE1") 100 (- (1)) 1 5) ].

(** Three buses in two countries, a line inside Germany and one across
    the border.  [wind] has an availability series, [ocgt] and [solar]
    have no capacity installed, [coal] has a minimum load, [pump] can run
    backwards. *)
Definition nodal : Network :=
  mkNetwork
    [ ("DE0", mkBus (Some "DE") 380); ("DE1", mkBus (Some "DE") 380);
      ("FR0", mkBus (Some "FR") 380) ]
    gens
    [ ("load DE1", mkOnePort (Some "DE1") 120); ("load FR0", mkOnePort (Some "FR0") 105) ]
    [] [] []
    [ ("DE0-DE1", mkBranch (Some "DE0") (Some "DE1") 500);
      ("DE1-FR0", mkBranch (Some "DE1") (Some "FR0") 300) ]
    [ ("dc", mkBranch (Some "DE0") (Some "FR0") 100) ]
    []
    (mkGeneratorsT [] [ ("wind", fun _ => Float.Fin (1 # 2)) ] []).

(** A dispatch in which [ocgt] runs although its [p_nom] is 0 (its capacity
    is the solver's to extend), [solar] does not run, [coal] runs at full
    load and [pump] takes power. *)
Definition dispatch (g : string) (t : nat) : Q :=
  if g =? "wind" then 30
  else if g =? "ocgt" then 5
  else if g =? "coal" then 200
  else if g =? "pump" then - (10)
  else 0.

Definition solver_ok (_ : string) (_ : SolverOptions) (_ : Network) : SolveOutcome :=
  Ok dispatch.



(** The market model of [nodal], solved. *)
Definition market : Network :=
  match aggregate_bidding_zones nodal nodal with
  | Some m => assign_solution m dispatch
  | None => nodal
  end.


(** A network already in zone buses, with a line from a zone to itself. *)
Definition zonal : Network :=
  mkNetwork
    [ ("DE", mkBus (Some "DE") 380); ("FR", mkBus (Some "FR") 380) ]
    [ ("wind", mkGenerator (Some "DE") 100 0 1 0) ]
    [ ("load", mkOnePort (Some "FR") 30) ]
    [] [] []
    [ ("DE-FR", mkBranch (Some "DE") (Some "FR") 500);
      ("DE-DE", mkBranch (Some "DE") (Some "DE") 500) ]
    [] []
    (mkGeneratorsT [] [] []).

End Sample.

(* ------------------------------------------------------------------ *)
(** ** Bus references of a network *)




(** The zone tag of a bus is set, or it is not. *)
Definition has_country (r : string * Bus) : bool :=
  match country (snd r) with
  | Some _ => true
  | None => false
  end.

(* ------------------------------------------------------------------ *)
(** ** More sample networks *)

Module Cases.

Open Scope string_scope.

(** Two buses in one country, joined by a line. *)
Definition one_zone : Network :=
  mkNetwork
    [ ("a", mkBus (Some "DE") 380); ("b", mkBus (Some "DE") 380) ]
    [ ("ga", mkGenerator (Some "a") 100 0 1 10);
      ("gb", mkGenerator (Some "b") 100 0 1 10) ]
    [] [] [] []
    [ ("a-b", mkBranch (Some "a") (Some "b") 10) ]
    [] []
    (mkGeneratorsT [] [] []).

End Cases.

(* ------------------------------------------------------------------ *)
(** ** The results folder ([set_folder_paths], [init_directory],
       [export_model_results]) *)

(** A path, as the names from the directory the program runs in down to
    the entry.  [os.path.join(path, name)] appends [name], for a [name]
    that is one plain path component. *)
Definition Path := list string.

Definition path_dec : forall p q : Path, {p = q} + {p <> q} :=
  list_eq_dec string_dec.

Definition mem_path (p : Path) (l : list Path) : bool :=
  if in_dec path_dec p l then true else false.

(** [q] is [p] or lies below [p]. *)
Fixpoint is_prefix (p q : Path) : bool :=
  match p, q with
  | [], _ => true
  | a :: p', b :: q' => String.eqb a b && is_prefix p' q'
  | _ :: _, [] => false
  end.

(** One plain component: not empty, not [.] or [..], without a separator. *)
Fixpoint has_separator (s : string) : bool :=
  match s with
  | EmptyString => false
  | String c s' => Ascii.eqb c "/"%char || has_separator s'
  end.

Definition plain_name (s : string) : bool :=
  negb (String.eqb s EmptyString) && negb (String.eqb s ".")
  && negb (String.eqb s "..") && negb (has_separator s).

(** The directories and the files that exist.  The directory the program
    runs in ([[]]) always exists. *)
Record FileSystem := mkFS {
  dirs : list Path;
  files : list Path
}.

Inductive OSError :=
| FileExistsError
| FileNotFoundError
| NotADirectoryError.

Definition is_dir (fs : FileSystem) (p : Path) : bool :=
  match p with
  | [] => true
  | _ => mem_path p (dirs fs)
  end.

Definition is_file (fs : FileSystem) (p : Path) : bool := mem_path p (files fs).

(** [os.path.exists] *)
Definition path_exists (fs : FileSystem) (p : Path) : bool :=
  is_dir fs p || is_file fs p.

(** The paths strictly above [q], from the top down. *)
Fixpoint ancestors (q : Path) : list Path :=
  match q with
  | [] => []
  | a :: q' => [] :: map (cons a) (ancestors q')
  end.

(** Every entry lies in a chain of directories. *)
Definition wf_fs (fs : FileSystem) : bool :=
  forallb (fun q => forallb (is_dir fs) (ancestors q)) (dirs fs ++ files fs).

(** [os.mkdir]: the path must be new and its parent a directory. *)
Definition mkdir (p : Path) (fs : FileSystem) : OSError + FileSystem :=
  if path_exists fs p then inl FileExistsError
  else if is_dir fs (removelast p) then inr (mkFS (p :: dirs fs) (files fs))
  else if is_file fs (removelast p) then inl NotADirectoryError
  else inl FileNotFoundError.

(** [shutil.rmtree]: the directory goes with everything below it. *)
Definition rmtree (p : Path) (fs : FileSystem) : OSError + FileSystem :=
  if is_dir fs p
  then inr (mkFS (filter (fun q => negb (is_prefix p q)) (dirs fs))
                 (filter (fun q => negb (is_prefix p q)) (files fs)))
  else if is_file fs p then inl NotADirectoryError
  else inl FileNotFoundError.

(** Lines 39-46. *)
Definition init_directory (path : Path) (empty_directory : bool) (fs : FileSystem)
    : OSError + FileSystem :=
  if path_exists fs path then
    if empty_directory then
      match rmtree path fs with
      | inl e => inl e
      | inr fs' => mkdir path fs'
      end
    else inr fs
  else mkdir path fs.

(** Lines 20-24: the results folder and the file system after the call. *)
Definition set_folder_paths (folder_path : Path) (fs : FileSystem)
    : OSError + (Path * FileSystem) :=
  let results_folder := folder_path ++ ["results_redispatch"%string] in
  match init_directory results_folder false fs with
  | inl e => inl e
  | inr fs' => inr (results_folder, fs')
  end.

(** [s[:-3]] *)
Definition drop_last3 (s : string) : string :=
  substring 0 (String.length s - 3) s.

(** [export_to_csv_folder(path)] on a directory that exists: the files it
    writes (their names depend on the network) are there afterwards. *)
Definition export_to_csv_folder (path : Path) (written : list string)
    (fs : FileSystem) : FileSystem :=
  let new := map (fun f => path ++ [f]) written in
  mkFS (dirs fs) (new ++ filter (fun q => negb (mem_path q new)) (files fs)).

(** The folder a model is exported to (lines 51 and 53). *)
Definition export_path (results_folder : Path) (network_name model_name : string) : Path :=
  (results_folder ++ [drop_last3 network_name]) ++ [model_name].

(** Lines 48-55 on the file system; [network_name] is [self.model_name]. *)
Definition export_files (results_folder : Path) (network_name model_name : string)
    (written : list string) (fs : FileSystem) : OSError + FileSystem :=
  let path := results_folder ++ [drop_last3 network_name] in
  match init_directory path false fs with
  | inl e => inl e
  | inr fs1 =>
      let path' := path ++ [model_name] in
      match init_directory path' true fs1 with
      | inl e => inl e
      | inr fs2 => inr (export_to_csv_folder path' written fs2)
      end
  end.

(** The files below [dest] are exactly the [written] ones. *)
Definition folder_holds (fs : FileSystem) (dest : Path) (written : list string) : Prop :=
  forall q, is_prefix dest q = true -> q <> dest ->
            (In q (files fs) <-> exists f, In f written /\ q = dest ++ [f]).

(** The exports of a run, in the order of its calls; [written] gives the
    files that the export of a model writes. *)
Fixpoint replay (results_folder : Path) (network_name : string)
    (written : string -> list string) (evs : list Event) (fs : FileSystem)
    : OSError + FileSystem :=
  match evs with
  | [] => inr fs
  | Optimize _ _ _ :: rest => replay results_folder network_name written rest fs
  | Export model_name :: rest =>
      match export_files results_folder network_name model_name
                         (written model_name) fs with
      | inl e => inl e
      | inr fs' => replay results_folder network_name written rest fs'
      end
  end.

(** What a run does to the file system: [set_folder_paths], then the
    exports. *)
Definition run_files (folder_path : Path) (network_name : string)
    (written : string -> list string) (evs : list Event) (fs : FileSystem)
    : OSError + FileSystem :=
  match set_folder_paths folder_path fs with
  | inl e => inl e
  | inr (results_folder, fs0) => replay results_folder network_name written evs fs0
  end.

(** A disk with the results of an earlier run of the market model. *)
Definition sample_disk : FileSystem :=
  mkFS [ ["elec"]; ["elec"; "results_redispatch"];
         ["elec"; "results_redispatch"; "net"];
         ["elec"; "results_redispatch"; "net"; "market_model"] ]%string
       [ ["elec"; "results_redispatch"; "net"; "market_model"; "stale.csv"];
         ["elec"; "notes.txt"] ]%string.

(** The file names an export writes, here the same for every model. *)
Definition sample_written (_ : string) : list string :=
  [ "buses.csv"; "generators.csv" ]%string.

(* ================================================================== *)
(** * Properties *)

(** ** Tables and indexes *)

Lemma mem_In (k : string) (ks : list string) : mem k ks = true <-> In k ks.
Proof.
  unfold mem. rewrite existsb_exists. split.
  - intros [x [Hin Heq]]. apply String.eqb_eq in Heq. now subst.
  - intros Hin. exists k. split; [assumption | apply String.eqb_refl].
Qed.

Lemma mem_false (k : string) (ks : list string) : mem k ks = false <-> ~ In k ks.
Proof.
  rewrite <- mem_In. destruct (mem k ks); split; intro H; try reflexivity;
    try discriminate; try (intro H'; discriminate). now elim H.
Qed.

Lemma is_unique_NoDup (ks : list string) : is_unique ks = true <-> NoDup ks.
Proof.
  induction ks as [|k ks IH]; simpl.
  - split; [constructor | reflexivity].
  - rewrite andb_true_iff, negb_true_iff, mem_false, IH. split.
    + intros [H1 H2]. now constructor.
    + intros H. inversion H; subst. now split.
Qed.

Lemma is_unique_app (l1 l2 : list string) :
  is_unique (l1 ++ l2) = true ->
  is_unique l1 = true /\ is_unique l2 = true /\ (forall k, In k l1 -> ~ In k l2).
Proof.
  rewrite !is_unique_NoDup. induction l1 as [|a l1 IH]; simpl; intros H.
  - repeat split; [constructor | assumption | tauto].
  - inversion H as [|? ? Hnotin Hnd]; subst. destruct (IH Hnd) as [H1 [H2 H3]].
    repeat split; try assumption.
    + constructor; [|assumption]. intro Hin. apply Hnotin, in_or_app. now left.
    + intros k [-> | Hin]; [|now apply H3].
      intro Hin2. apply Hnotin, in_or_app. now right.
Qed.

Lemma loc_None (A : Type) (tbl : Table A) (k : string) :
  loc tbl k = None <-> ~ In k (index tbl).
Proof.
  induction tbl as [|[k' a] tbl IH]; simpl.
  - tauto.
  - destruct (String.eqb_spec k k') as [-> | Hne].
    + split; [discriminate | intros H; elim H; now left].
    + rewrite IH. split; [intros H [Heq | Hin]; [congruence | tauto] | tauto].
Qed.

Lemma loc_Some_In (A : Type) (tbl : Table A) (k : string) (a : A) :
  loc tbl k = Some a -> In k (index tbl).
Proof.
  intros H. destruct (in_dec string_dec k (index tbl)) as [Hin | Hnin];
    [assumption|]. apply loc_None in Hnin. congruence.
Qed.

Lemma In_loc (A : Type) (tbl : Table A) (k : string) :
  In k (index tbl) -> exists a, loc tbl k = Some a.
Proof.
  intros Hin. destruct (loc tbl k) as [a|] eqn:E; [now exists a|].
  apply loc_None in E. contradiction.
Qed.

Lemma loc_app (A : Type) (t1 t2 : Table A) (k : string) :
  loc (t1 ++ t2) k = match loc t1 k with Some a => Some a | None => loc t2 k end.
Proof.
  induction t1 as [|[k' a] t1 IH]; simpl; [reflexivity|].
  now destruct (String.eqb k k').
Qed.

Lemma index_mapi (A B : Type) (f : string -> A -> B) (tbl : Table A) :
  index (mapi f tbl) = index tbl.
Proof.
  unfold index, mapi. rewrite map_map. reflexivity.
Qed.

Lemma loc_mapi (A B : Type) (f : string -> A -> B) (tbl : Table A) (k : string) :
  loc (mapi f tbl) k = option_map (f k) (loc tbl k).
Proof.
  induction tbl as [|[k' a] tbl IH]; simpl; [reflexivity|].
  destruct (String.eqb_spec k k') as [-> | Hne]; [reflexivity | exact IH].
Qed.

Lemma index_rename (A : Type) (f : string -> string) (tbl : Table A) :
  index (rename f tbl) = map f (index tbl).
Proof.
  unfold index, rename. rewrite !map_map. reflexivity.
Qed.

Lemma loc_rename (A : Type) (f : string -> string) (tbl : Table A) (k : string) :
  (forall x y, f x = f y -> x = y) ->
  loc (rename f tbl) (f k) = loc tbl k.
Proof.
  intros Hinj. induction tbl as [|[k' a] tbl IH]; simpl; [reflexivity|].
  destruct (String.eqb_spec k k') as [-> | Hne].
  - now rewrite String.eqb_refl.
  - destruct (String.eqb_spec (f k) (f k')) as [Heq | _]; [|exact IH].
    elim Hne. now apply Hinj.
Qed.

(** The columns of an aligned operation, looked up by label. *)
Lemma loc_tabulate (A : Type) (F : string -> A) (ls : list string) (k : string) :
  loc (map (fun c => (c, F c)) ls) k = if mem k ls then Some (F k) else None.
Proof.
  induction ls as [|c ls IH]; simpl; [reflexivity|].
  destruct (String.eqb_spec k c) as [-> | Hne]; [reflexivity | exact IH].
Qed.

Lemma index_tabulate (A : Type) (F : string -> A) (ls : list string) :
  index (map (fun c => (c, F c)) ls) = ls.
Proof.
  unfold index. rewrite map_map. simpl. apply map_id.
Qed.

Lemma In_union_index (l1 l2 : list string) (k : string) :
  In k (union_index l1 l2) <-> In k l1 \/ In k l2.
Proof.
  unfold union_index. rewrite in_app_iff, filter_In, negb_true_iff, mem_false.
  destruct (in_dec string_dec k l1); tauto.
Qed.

Lemma loc_filter_index (A : Type) (P : string -> bool) (tbl : Table A) (k : string) :
  loc (filter (fun r => P (fst r)) tbl) k = if P k then loc tbl k else None.
Proof.
  induction tbl as [|[k' a] tbl IH]; simpl.
  - now destruct (P k).
  - destruct (P k') eqn:EP; simpl.
    + destruct (String.eqb_spec k k') as [-> | Hne]; [now rewrite EP | exact IH].
    + destruct (String.eqb_spec k k') as [-> | Hne]; [now rewrite EP in * | exact IH].
Qed.

(** Writing series into a frame: the new column wins, the old one stays
    where there is no new one. *)
Lemma loc_import_series (pnl new : Frame) (k : string) :
  loc (import_series pnl new) k =
  match loc new k with
  | Some col => Some col
  | None => loc pnl k
  end.
Proof.
  unfold import_series. rewrite loc_app, loc_mapi.
  destruct (loc pnl k) as [col|] eqn:E; simpl.
  - now destruct (loc new k).
  - rewrite (loc_filter_index (fun c => negb (mem c (index pnl)))).
    apply loc_None, mem_false in E. rewrite E. simpl. now destruct (loc new k).
Qed.

(** Removing by name the rows that satisfy [P] keeps the others, when the
    index is unique. *)
Lemma mremove_filter (A : Type) (P : string * A -> bool) (tbl : Table A) :
  NoDup (index tbl) ->
  mremove tbl (index (filter P tbl)) = filter (fun r => negb (P r)) tbl.
Proof.
  intros Hnd. unfold mremove. apply filter_ext_in. intros [k a] Hin. simpl.
  f_equal. destruct (P (k, a)) eqn:EP.
  - apply mem_In. apply (in_map fst _ (k, a)), filter_In. now split.
  - apply mem_false. intros Hmem. unfold index in Hmem.
    apply in_map_iff in Hmem. destruct Hmem as [[k' a'] [Hk Hin']]. simpl in Hk.
    subst k'. apply filter_In in Hin'. destruct Hin' as [Hin' HP].
    assert (a' = a); [|subst; congruence].
    clear - Hnd Hin Hin'. induction tbl as [|[k0 a0] tbl IH]; [contradiction|].
    simpl in Hnd. inversion Hnd as [|? ? Hnotin Hnd']; subst.
    destruct Hin as [Heq | Hin]; destruct Hin' as [Heq' | Hin'].
    + congruence.
    + inversion Heq; subst. elim Hnotin. now apply (in_map fst _ (k, a')).
    + inversion Heq'; subst. elim Hnotin. now apply (in_map fst _ (k, a)).
    + now apply IH.
Qed.

Lemma filter_none (A : Type) (f : A -> bool) (l : list A) :
  (forall x, In x l -> f x = false) -> filter f l = [].
Proof.
  induction l as [|a l IH]; simpl; intros H; [reflexivity|].
  rewrite (H a (or_introl eq_refl)). apply IH. intros x Hx. apply H. now right.
Qed.

Lemma mremove_all (A : Type) (tbl : Table A) : mremove tbl (index tbl) = [].
Proof.
  unfold mremove. apply filter_none. intros [k a] Hin. simpl.
  apply negb_false_iff, mem_In. now apply (in_map fst _ (k, a)).
Qed.

(** ** Names of the synthetic generators *)

Lemma list_ascii_of_append (a s : string) :
  list_ascii_of_string (a ++ s) = list_ascii_of_string a ++ list_ascii_of_string s.
Proof.
  induction a as [|c a IH]; simpl; [reflexivity | now rewrite IH].
Qed.

Lemma append_inv_tail (s a b : string) : (a ++ s)%string = (b ++ s)%string -> a = b.
Proof.
  intros H. apply (f_equal list_ascii_of_string) in H.
  rewrite !list_ascii_of_append in H. apply app_inv_tail in H.
  rewrite <- (string_of_list_ascii_of_string a), <- (string_of_list_ascii_of_string b).
  now rewrite H.
Qed.

Lemma ramp_up_inj (x y : string) : ramp_up x = ramp_up y -> x = y.
Proof. apply append_inv_tail. Qed.

Lemma ramp_down_inj (x y : string) : ramp_down x = ramp_down y -> x = y.
Proof. apply append_inv_tail. Qed.

(** What [splittable] says about one original generator. *)
Lemma splittable_fresh (idx : list string) :
  is_unique (split_names idx) = true ->
  (forall g g', In g idx -> In g' idx -> g <> ramp_up g')
  /\ (forall g g', In g idx -> In g' idx -> g <> ramp_down g')
  /\ (forall g g', In g idx -> In g' idx -> ramp_up g <> ramp_down g').
Proof.
  unfold split_names. intros H.
  apply is_unique_app in H. destruct H as [_ [H2 H3]].
  apply is_unique_app in H2. destruct H2 as [_ [_ H4]].
  repeat split; intros g g' Hg Hg' Heq.
  - apply (H3 g Hg). apply in_or_app. left. rewrite Heq. now apply in_map.
  - apply (H3 g Hg). apply in_or_app. right. rewrite Heq. now apply in_map.
  - apply (H4 (ramp_up g)); [now apply in_map | rewrite Heq; now apply in_map].
Qed.

(** ** The splitter, in closed form *)

Lemma index_g_up (gens : Table Generator) : index (g_up gens) = map ramp_up (index gens).
Proof. unfold g_up. now rewrite index_rename, index_mapi. Qed.

Lemma index_g_down (gens : Table Generator) : index (g_down gens) = map ramp_down (index gens).
Proof. unfold g_down. now rewrite index_rename, index_mapi. Qed.

Lemma index_app (A : Type) (t1 t2 : Table A) : index (t1 ++ t2) = index t1 ++ index t2.
Proof. unfold index. apply map_app. Qed.

Lemma split_generators_eq (market redispatch : Network) :
  split_generators market redispatch =
  if is_unique (split_names (index (generators redispatch)))
  then Some (split_result market redispatch) else None.
Proof.
  unfold split_generators, split_result, madd, split_names.
  set (gens := generators redispatch).
  rewrite index_g_up.
  destruct (is_unique (index gens ++ map ramp_up (index gens))) eqn:E1.
  - rewrite index_app, index_g_up, index_g_down, <- !app_assoc.
    destruct (is_unique (index gens ++ map ramp_up (index gens) ++ map ramp_down (index gens)));
      reflexivity.
  - destruct (is_unique (index gens ++ map ramp_up (index gens) ++ map ramp_down (index gens))) eqn:E2;
      [|reflexivity].
    rewrite app_assoc in E2. apply is_unique_app in E2. destruct E2 as [E2 _]. congruence.
Qed.

Lemma split_generators_splittable (market redispatch : Network) :
  splittable redispatch -> split_generators market redispatch = Some (split_result market redispatch).
Proof.
  unfold splittable. intros H. now rewrite split_generators_eq, H.
Qed.

(** ** Cells of aligned frames *)

Lemma index_frame_op_series op (df : Frame) (s : Table Float.t) :
  index (frame_op_series op df s) = union_index (index df) (index s).
Proof. unfold frame_op_series. apply index_tabulate. Qed.

Lemma index_frame_op op (df1 df2 : Frame) :
  index (frame_op op df1 df2) = union_index (index df1) (index df2).
Proof. unfold frame_op. apply index_tabulate. Qed.

Lemma index_frame_map f (df : Frame) : index (frame_map f df) = index df.
Proof. unfold frame_map. apply index_mapi. Qed.

Lemma loc_frame_op_series op (df : Frame) (s : Table Float.t) (k : string) :
  In k (index df) \/ In k (index s) ->
  loc (frame_op_series op df s) k = Some (fun t => op (cell df k t) (cell_series s k)).
Proof.
  intros H. unfold frame_op_series. rewrite loc_tabulate.
  apply In_union_index, mem_In in H. now rewrite H.
Qed.

Lemma cell_frame_op_series op (df : Frame) (s : Table Float.t) (k : string) (t : nat) :
  In k (index df) \/ In k (index s) ->
  cell (frame_op_series op df s) k t = op (cell df k t) (cell_series s k).
Proof.
  intros H. unfold cell at 1. now rewrite loc_frame_op_series.
Qed.

Lemma cell_frame_op op (df1 df2 : Frame) (k : string) (t : nat) :
  In k (index df1) \/ In k (index df2) ->
  cell (frame_op op df1 df2) k t = op (cell df1 k t) (cell df2 k t).
Proof.
  intros H. unfold cell at 1, frame_op. rewrite loc_tabulate.
  apply In_union_index, mem_In in H. now rewrite H.
Qed.

Lemma cell_frame_map f (df : Frame) (k : string) (t : nat) :
  In k (index df) -> cell (frame_map f df) k t = f (cell df k t).
Proof.
  intros H. apply In_loc in H. destruct H as [col E].
  unfold cell, frame_map. rewrite loc_mapi, E. reflexivity.
Qed.

Lemma index_p_nom_series (n : Network) : index (p_nom_series n) = index (generators n).
Proof. unfold p_nom_series. apply index_mapi. Qed.

Lemma cell_p_nom_series (n : Network) (g : string) (row : Generator) :
  loc (generators n) g = Some row -> cell_series (p_nom_series n) g = Float.Fin (p_nom row).
Proof.
  intros H. unfold cell_series, p_nom_series. now rewrite loc_mapi, H.
Qed.

Lemma index_as_dense static pnl (n : Network) :
  index (as_dense static pnl n) = index (generators n).
Proof. unfold as_dense. apply index_mapi. Qed.

(** ** The three frames of the splitter *)

Section Splitter.

Variable market : Network.

Let dispatch : Frame := t_p (generators_t market).
Let available_max : Frame := as_dense p_max_pu t_p_max_pu market.

Lemma In_index_realized_ratio (g : string) :
  In g (index (generators market)) -> In g (index (realized_ratio market)).
Proof.
  intros H. unfold realized_ratio.
  rewrite index_frame_map, index_frame_op_series, index_p_nom_series.
  apply In_union_index. now right.
Qed.

Lemma cell_realized_ratio (g : string) (row : Generator) (t : nat) :
  loc (generators market) g = Some row ->
  cell (realized_ratio market) g t =
  Float.fillna0 (Float.div (cell dispatch g t) (Float.Fin (p_nom row))).
Proof.
  intros H. pose proof (loc_Some_In _ _ H) as Hin. unfold realized_ratio.
  rewrite cell_frame_map
    by (rewrite index_frame_op_series, index_p_nom_series; apply In_union_index; now right).
  rewrite cell_frame_op_series by (right; now rewrite index_p_nom_series).
  now rewrite (cell_p_nom_series _ _ H).
Qed.

Lemma In_index_up (g : string) :
  In g (index (generators market)) -> In g (index (up market)).
Proof.
  intros H. unfold up. rewrite index_frame_op_series, index_p_nom_series.
  apply In_union_index. now right.
Qed.

Lemma cell_up (g : string) (row : Generator) (t : nat) :
  loc (generators market) g = Some row ->
  cell (up market) g t =
  Float.div
    (Float.clip0
       (Float.sub (Float.mul (cell available_max g t) (Float.Fin (p_nom row)))
                  (cell dispatch g t)))
    (Float.Fin (p_nom row)).
Proof.
  intros H. pose proof (loc_Some_In _ _ H) as Hin. unfold up.
  assert (H1 : In g (index (frame_op_series Float.mul available_max (p_nom_series market)))).
  { rewrite index_frame_op_series. apply In_union_index. left.
    unfold available_max. now rewrite index_as_dense. }
  rewrite cell_frame_op_series by (right; now rewrite index_p_nom_series).
  rewrite cell_frame_map
    by (rewrite index_frame_op; apply In_union_index; left; exact H1).
  rewrite cell_frame_op by (left; exact H1).
  rewrite cell_frame_op_series
    by (left; unfold available_max; now rewrite index_as_dense).
  now rewrite (cell_p_nom_series _ _ H).
Qed.

Lemma In_index_down (g : string) :
  In g (index (generators market)) -> In g (index (down market)).
Proof.
  intros H. unfold down. rewrite index_frame_op_series, index_p_nom_series.
  apply In_union_index. now right.
Qed.

Lemma cell_down (g : string) (row : Generator) (t : nat) :
  loc (generators market) g = Some row ->
  cell (down market) g t =
  Float.div (Float.neg (cell dispatch g t)) (Float.Fin (p_nom row)).
Proof.
  intros H. pose proof (loc_Some_In _ _ H) as Hin. unfold down.
  rewrite cell_frame_op_series by (right; now rewrite index_p_nom_series).
  rewrite (cell_p_nom_series _ _ H). f_equal.
  destruct (in_dec string_dec g (index dispatch)) as [Hd | Hd].
  - now apply cell_frame_map.
  - unfold cell, frame_map. rewrite loc_mapi.
    apply loc_None in Hd. fold dispatch. now rewrite Hd.
Qed.

(** With an aligned dispatch, the three frames have columns for the
    generators of the market model and for nothing else. *)
Hypothesis aligned : dispatch_aligned market.

Lemma index_realized_ratio_incl :
  incl (index (realized_ratio market)) (index (generators market)).
Proof.
  intros k. unfold realized_ratio.
  rewrite index_frame_map, index_frame_op_series, index_p_nom_series, In_union_index.
  intros [H | H]; [now apply aligned | exact H].
Qed.

Lemma index_up_incl : incl (index (up market)) (index (generators market)).
Proof.
  intros k. unfold up.
  rewrite index_frame_op_series, index_frame_map, index_frame_op,
    index_frame_op_series, index_as_dense, index_p_nom_series, !In_union_index.
  intros [[[H | H] | H] | H]; try exact H. now apply aligned.
Qed.

Lemma index_down_incl : incl (index (down market)) (index (generators market)).
Proof.
  intros k. unfold down.
  rewrite index_frame_op_series, index_frame_map, index_p_nom_series, In_union_index.
  intros [H | H]; [now apply aligned | exact H].
Qed.

End Splitter.

(** ** Bounds of the redispatch model *)

Lemma In_index_loc (A : Type) (tbl : Table A) (k : string) :
  In k (index tbl) <-> loc tbl k <> None.
Proof.
  split.
  - intros H E. apply loc_None in E. contradiction.
  - intros H. destruct (in_dec string_dec k (index tbl)) as [Hin | Hnin];
      [assumption|]. apply loc_None in Hnin. contradiction.
Qed.

Lemma In_index_import_series (pnl new : Frame) (k : string) :
  In k (index (import_series pnl new)) <-> In k (index pnl) \/ In k (index new).
Proof.
  rewrite !In_index_loc, loc_import_series.
  destruct (loc new k), (loc pnl k); split; intros H; try discriminate;
    try (left; discriminate); try (right; discriminate); tauto.
Qed.

Lemma cell_import_series_new (pnl new : Frame) (k : string) (t : nat) :
  In k (index new) -> cell (import_series pnl new) k t = cell new k t.
Proof.
  intros H. apply In_loc in H. destruct H as [col E].
  unfold cell. now rewrite loc_import_series, E.
Qed.

Lemma cell_import_series_old (pnl new : Frame) (k : string) (t : nat) :
  ~ In k (index new) -> cell (import_series pnl new) k t = cell pnl k t.
Proof.
  intros H. apply loc_None in H. unfold cell. now rewrite loc_import_series, H.
Qed.

Lemma cell_rename (f : string -> string) (df : Frame) (k : string) (t : nat) :
  (forall x y, f x = f y -> x = y) -> cell (rename f df) (f k) t = cell df k t.
Proof.
  intros Hinj. unfold cell. now rewrite loc_rename.
Qed.

(** A bound read through [as_dense]: the series where the frame has a
    column for the generator, its static value otherwise. *)
Lemma bound_series static pnl (n : Network) (k : string) (row : Generator) (t : nat) :
  loc (generators n) k = Some row ->
  In k (index (pnl (generators_t n))) ->
  option_map (fun col : nat -> Float.t => col t) (loc (as_dense static pnl n) k)
  = Some (cell (pnl (generators_t n)) k t).
Proof.
  intros Hrow Hin. unfold as_dense, cell. rewrite loc_mapi, Hrow. simpl.
  apply In_loc in Hin. destruct Hin as [col E]. now rewrite E.
Qed.

Lemma bound_static static pnl (n : Network) (k : string) (row : Generator) (t : nat) :
  loc (generators n) k = Some row ->
  ~ In k (index (pnl (generators_t n))) ->
  option_map (fun col : nat -> Float.t => col t) (loc (as_dense static pnl n) k)
  = Some (Float.Fin (static row)).
Proof.
  intros Hrow Hin. unfold as_dense. rewrite loc_mapi, Hrow. simpl.
  apply loc_None in Hin. now rewrite Hin.
Qed.

Section SplitBounds.

Variables market redispatch : Network.
Hypothesis Hsplit : splittable redispatch.
Hypothesis Hsame : same_generators market redispatch.

Let gens := generators redispatch.
Let idx := index (generators redispatch).
Let n' := split_result market redispatch.

Lemma loc_split_original (g : string) (row : Generator) :
  loc gens g = Some row -> loc (generators n') g = Some row.
Proof.
  intros H. unfold gens in H. simpl. now rewrite loc_app, H.
Qed.

Lemma loc_split_up (g : string) (row : Generator) :
  loc gens g = Some row ->
  loc (generators n') (ramp_up g) =
  Some (mkGenerator (bus row) (p_nom row) (p_min_pu row) default_p_max_pu (marginal_cost row)).
Proof.
  intros H. unfold gens in H. pose proof (loc_Some_In _ _ H) as Hin.
  destruct (splittable_fresh _ Hsplit) as [F1 [F2 F3]].
  simpl. rewrite !loc_app.
  assert (E : loc (generators redispatch) (ramp_up g) = None).
  { apply loc_None. intros Hin'. exact (F1 _ _ Hin' Hin eq_refl). }
  rewrite E. unfold g_up. rewrite (loc_rename _ _ _ ramp_up_inj), loc_mapi.
  now rewrite H.
Qed.

Lemma loc_split_down (g : string) (row : Generator) :
  loc gens g = Some row ->
  loc (generators n') (ramp_down g) =
  Some (mkGenerator (bus row) (p_nom row) default_p_min_pu 0 (marginal_cost row)).
Proof.
  intros H. unfold gens in H. pose proof (loc_Some_In _ _ H) as Hin.
  destruct (splittable_fresh _ Hsplit) as [F1 [F2 F3]].
  simpl. rewrite !loc_app.
  assert (E1 : loc (generators redispatch) (ramp_down g) = None).
  { apply loc_None. intros Hin'. exact (F2 _ _ Hin' Hin eq_refl). }
  assert (E2 : loc (g_up (generators redispatch)) (ramp_down g) = None).
  { apply loc_None. rewrite index_g_up. intros Hin'.
    apply in_map_iff in Hin'. destruct Hin' as [g' [Heq Hg']].
    exact (F3 _ _ Hg' Hin Heq). }
  rewrite E1, E2. unfold g_down. rewrite (loc_rename _ _ _ ramp_down_inj), loc_mapi.
  now rewrite H.
Qed.

(** Line 119 on the result: the ramp-up copy has the headroom as its
    upper bound. *)
Lemma ramp_up_p_max_pu (g : string) (row : Generator) (t : nat) :
  loc (generators market) g = Some row ->
  p_max_pu_at n' (ramp_up g) t = Some (cell (up market) g t).
Proof.
  intros H. pose proof (loc_Some_In _ _ H) as Hin.
  assert (Hin' : In g idx) by (unfold idx; now rewrite <- Hsame).
  destruct (In_loc _ _ Hin') as [row' Hrow'].
  assert (Hcol : In (ramp_up g) (index (rename ramp_up (up market)))).
  { rewrite index_rename. apply in_map. now apply In_index_up. }
  unfold p_max_pu_at.
  rewrite (bound_series p_max_pu t_p_max_pu n' (ramp_up g) t (loc_split_up _ Hrow'))
    by (simpl; apply In_index_import_series; now right).
  simpl. rewrite cell_import_series_new by exact Hcol.
  now rewrite (cell_rename _ _ _ _ ramp_up_inj).
Qed.

(** Line 120 on the result: the ramp-down copy has minus the market
    dispatch as its lower bound. *)
Lemma ramp_down_p_min_pu (g : string) (row : Generator) (t : nat) :
  loc (generators market) g = Some row ->
  p_min_pu_at n' (ramp_down g) t = Some (cell (down market) g t).
Proof.
  intros H. pose proof (loc_Some_In _ _ H) as Hin.
  assert (Hin' : In g idx) by (unfold idx; now rewrite <- Hsame).
  destruct (In_loc _ _ Hin') as [row' Hrow'].
  assert (Hcol : In (ramp_down g) (index (rename ramp_down (down market)))).
  { rewrite index_rename. apply in_map. now apply In_index_down. }
  unfold p_min_pu_at.
  rewrite (bound_series p_min_pu t_p_min_pu n' (ramp_down g) t (loc_split_down _ Hrow'))
    by (simpl; apply In_index_import_series; now right).
  simpl. rewrite cell_import_series_new by exact Hcol.
  now rewrite (cell_rename _ _ _ _ ramp_down_inj).
Qed.

Hypothesis Haligned : dispatch_aligned market.

Lemma not_in_renamed_up (k : string) :
  (forall g', In g' idx -> ramp_up g' <> k) ->
  ~ In k (index (rename ramp_up (up market))).
Proof.
  intros H Hin. rewrite index_rename in Hin. apply in_map_iff in Hin.
  destruct Hin as [g' [Heq Hg']]. apply (H g'); [|exact Heq].
  unfold idx. rewrite <- Hsame. now apply index_up_incl.
Qed.

Lemma not_in_renamed_down (k : string) :
  (forall g', In g' idx -> ramp_down g' <> k) ->
  ~ In k (index (rename ramp_down (down market))).
Proof.
  intros H Hin. rewrite index_rename in Hin. apply in_map_iff in Hin.
  destruct Hin as [g' [Heq Hg']]. apply (H g'); [|exact Heq].
  unfold idx. rewrite <- Hsame. now apply index_down_incl.
Qed.

Lemma not_in_realized_ratio (k : string) :
  ~ In k idx -> ~ In k (index (realized_ratio market)).
Proof.
  intros H Hin. apply H. unfold idx. rewrite <- Hsame.
  now apply index_realized_ratio_incl.
Qed.

(** Lines 100-101 on the result: both bounds of an original generator are
    the frame [p] of line 99, also after the two [madd]. *)
Lemma original_bounds (g : string) (row : Generator) (t : nat) :
  loc (generators market) g = Some row ->
  p_min_pu_at n' g t = Some (cell (realized_ratio market) g t)
  /\ p_max_pu_at n' g t = Some (cell (realized_ratio market) g t).
Proof.
  intros H. pose proof (loc_Some_In _ _ H) as Hin.
  assert (Hin' : In g idx) by (unfold idx; now rewrite <- Hsame).
  destruct (In_loc _ _ Hin') as [row' Hrow'].
  destruct (splittable_fresh _ Hsplit) as [F1 [F2 F3]].
  pose proof (In_index_realized_ratio market g Hin) as Hp.
  split.
  - unfold p_min_pu_at.
    rewrite (bound_series p_min_pu t_p_min_pu n' g t (loc_split_original _ Hrow'))
      by (simpl; apply In_index_import_series; now left).
    simpl. rewrite cell_import_series_old; [reflexivity|].
    apply not_in_renamed_down. intros g' Hg' Heq. exact (F2 _ _ Hin' Hg' (eq_sym Heq)).
  - unfold p_max_pu_at.
    rewrite (bound_series p_max_pu t_p_max_pu n' g t (loc_split_original _ Hrow'))
      by (simpl; apply In_index_import_series; now left).
    simpl. rewrite cell_import_series_old; [reflexivity|].
    apply not_in_renamed_up. intros g' Hg' Heq. exact (F1 _ _ Hin' Hg' (eq_sym Heq)).
Qed.

(** The ramp-up copy has no column in [generators_t.p_min_pu]: its lower
    bound is the static [p_min_pu] that line 119 copies from the original. *)
Lemma ramp_up_p_min_pu (g : string) (row : Generator) (t : nat) :
  loc gens g = Some row ->
  p_min_pu_at n' (ramp_up g) t = Some (Float.Fin (p_min_pu row)).
Proof.
  intros H. pose proof (loc_Some_In _ _ H) as Hin.
  destruct (splittable_fresh _ Hsplit) as [F1 [F2 F3]].
  unfold p_min_pu_at.
  rewrite (bound_static p_min_pu t_p_min_pu n' (ramp_up g) t (loc_split_up _ H));
    [reflexivity|].
  simpl. rewrite In_index_import_series. intros [Hc | Hc].
  - revert Hc. apply not_in_realized_ratio. intros Hc. exact (F1 _ _ Hc Hin eq_refl).
  - revert Hc. apply not_in_renamed_down. intros g' Hg' Heq.
    exact (F3 _ _ Hin Hg' (eq_sym Heq)).
Qed.

(** The ramp-down copy has no column in [generators_t.p_max_pu]: its upper
    bound is the static 0 of line 120. *)
Lemma ramp_down_p_max_pu (g : string) (row : Generator) (t : nat) :
  loc gens g = Some row ->
  p_max_pu_at n' (ramp_down g) t = Some (Float.Fin 0).
Proof.
  intros H. pose proof (loc_Some_In _ _ H) as Hin.
  destruct (splittable_fresh _ Hsplit) as [F1 [F2 F3]].
  unfold p_max_pu_at.
  rewrite (bound_static p_max_pu t_p_max_pu n' (ramp_down g) t (loc_split_down _ H));
    [reflexivity|].
  simpl. rewrite In_index_import_series. intros [Hc | Hc].
  - revert Hc. apply not_in_realized_ratio. intros Hc. exact (F2 _ _ Hc Hin eq_refl).
  - revert Hc. apply not_in_renamed_up. intros g' Hg' Heq.
    exact (F3 _ _ Hg' Hin Heq).
Qed.

End SplitBounds.

(** ** Float arithmetic on finite values *)

Lemma Qeq_bool_pos (q : Q) : 0 < q -> Qeq_bool q 0 = false.
Proof.
  intros H. destruct (Qeq_bool q 0) eqn:E; [|reflexivity].
  apply Qeq_bool_eq in E. rewrite E in H. now apply Qlt_irrefl in H.
Qed.

Lemma Qdiv_nonneg (c q : Q) : 0 <= c -> 0 < q -> 0 <= c / q.
Proof.
  intros Hc Hq. unfold Qdiv. apply Qmult_le_0_compat; [assumption|].
  apply Qinv_le_0_compat. now apply Qlt_le_weak.
Qed.


(** Line 114 on numbers. *)
Lemma curtailment_finite (x pn : Q) :
  0 <= x -> 0 < pn ->
  exists y,
    Float.div (Float.neg (Float.Fin x)) (Float.Fin pn) = Float.Fin y
    /\ y == - x / pn
    /\ y <= 0.
Proof.
  intros Hx Hpn. simpl. rewrite (Qeq_bool_pos Hpn).
  exists (- x / pn). split; [reflexivity|]. split; [reflexivity|].
  assert (H : 0 <= x / pn) by now apply Qdiv_nonneg.
  unfold Qdiv in *. setoid_replace (- x * / pn) with (- (x * / pn)) by ring.
  lra.
Qed.


(* ================================================================== *)
(** * The redispatch generator splitter *)

(** For every original generator both bounds are the frame of line 99:
    the market dispatch over [p_nom], with NaN filled by 0.  (What holds of
    lines 99-101 in general; the zero-capacity case is below.) *)
Lemma original_generator_fixed_to_market market redispatch g row t :
  splittable redispatch ->
  same_generators market redispatch ->
  dispatch_aligned market ->
  loc (generators market) g = Some row ->
  exists n',
    split_generators market redispatch = Some n'
    /\ p_min_pu_at n' g t =
       Some (Float.fillna0 (Float.div (cell (t_p (generators_t market)) g t)
                                      (Float.Fin (p_nom row))))
    /\ p_max_pu_at n' g t = p_min_pu_at n' g t.
Proof.
  intros Hsplit Hsame Hal Hrow. exists (split_result market redispatch).
  split; [now apply split_generators_splittable|].
  destruct (original_bounds Hsplit Hsame Hal g t Hrow) as [Hmin Hmax].
  rewrite Hmin, Hmax. split; [|reflexivity].
  now rewrite (cell_realized_ratio market g t Hrow).
Qed.

(** C1 (failing input).  [ocgt] has [p_nom] 0 and a market dispatch of 5
    at snapshot 0.  The claim has its realized ratio, and so both bounds
    of the original generator on the redispatch network, equal to 0; line
    99 divides 5 by 0, which is +inf, [fillna(0)] leaves the infinity in
    place, and both bounds are +inf. *)
Theorem C1_zero_capacity_ratio_is_infinite :
  option_map p_nom (loc (generators Sample.market) "ocgt") = Some 0
  /\ cell (t_p (generators_t Sample.market)) "ocgt" 0 = Float.Fin 5
  /\ exists n',
       split_generators Sample.market Sample.nodal = Some n'
       /\ p_min_pu_at n' "ocgt" 0 = Some Float.PInf
       /\ p_max_pu_at n' "ocgt" 0 = Some Float.PInf.
Proof.
  split; [reflexivity|]. split; [reflexivity|].
  exists (split_result Sample.market Sample.nodal).
  split; [apply split_generators_splittable; reflexivity|].
  split; vm_compute; reflexivity.
Qed.



(** C3 (counterexample).  The lower bound of a ramp-down generator is not
    always <= 0: for [solar] ([p_nom] 0, dispatch 0) it is NaN, for [pump]
    (dispatch -10 of 100) it is positive. *)
Lemma C3_ramp_down_lower_bound_counterexample :
  exists n',
    split_generators Sample.market Sample.nodal = Some n'
    /\ p_min_pu_at n' (ramp_down "solar") 0 = Some Float.NaN
    /\ ~ Float.nonpos Float.NaN
    /\ exists y, p_min_pu_at n' (ramp_down "pump") 0 = Some (Float.Fin y)
                 /\ ~ Float.nonpos (Float.Fin y).
Proof.
  exists (split_result Sample.market Sample.nodal).
  split; [apply split_generators_splittable; reflexivity|].
  split; [vm_compute; reflexivity|]. split; [intros H; exact H|].
  exists (10 # 100). split; [vm_compute; reflexivity|].
  simpl. intros H. revert H. apply Qlt_not_le. reflexivity.
Qed.

(** C3 (amended).  For every original generator [g] and snapshot [t] the
    ramp-down generator has [p_min_pu = -market.p / p_nom] and
    [p_max_pu = 0]; the lower bound is a number <= 0 whenever
    [p_nom > 0] and the market dispatch is a number >= 0. *)
Theorem C3_ramp_down_bounds market redispatch g row t :
  splittable redispatch ->
  same_generators market redispatch ->
  dispatch_aligned market ->
  loc (generators market) g = Some row ->
  let p := cell (t_p (generators_t market)) g t in
  exists n',
    split_generators market redispatch = Some n'
    /\ p_min_pu_at n' (ramp_down g) t =
       Some (Float.div (Float.neg p) (Float.Fin (p_nom row)))
    /\ p_max_pu_at n' (ramp_down g) t = Some (Float.Fin 0)
    /\ (forall x,
          p = Float.Fin x -> 0 <= x -> 0 < p_nom row ->
          exists y,
            p_min_pu_at n' (ramp_down g) t = Some (Float.Fin y)
            /\ y == - x / p_nom row
            /\ y <= 0).
Proof.
  intros Hsplit Hsame Hal Hrow p.
  exists (split_result market redispatch).
  split; [now apply split_generators_splittable|].
  pose proof (ramp_down_p_min_pu Hsplit Hsame g t Hrow) as Hdown.
  rewrite (cell_down market g t Hrow) in Hdown. fold p in Hdown.
  assert (Hin : In g (index (generators redispatch))).
  { rewrite <- Hsame. exact (loc_Some_In _ _ Hrow). }
  destruct (In_loc _ _ Hin) as [row' Hrow'].
  split; [exact Hdown|].
  split; [exact (ramp_down_p_max_pu Hsplit Hsame Hal g t Hrow')|].
  intros x Hx Hpos Hpn. rewrite Hdown, Hx.
  destruct (curtailment_finite Hpos Hpn) as [y [Ey [Hy1 Hy2]]].
  exists y. rewrite Ey. now repeat split.
Qed.

Lemma Sample_market_aligned : dispatch_aligned Sample.market.
Proof.
  intros k Hk. vm_compute in Hk. vm_compute. exact Hk.
Qed.

Lemma C3_ramp_down_bounds_witness :
  splittable Sample.nodal
  /\ same_generators Sample.market Sample.nodal
  /\ dispatch_aligned Sample.market
  /\ loc (generators Sample.market) "wind" = Some (mkGenerator (Some "DE"%string) 100 0 1 0)
  /\ exists n',
       split_generators Sample.market Sample.nodal = Some n'
       /\ p_max_pu_at n' (ramp_down "wind") 0 = Some (Float.Fin 0)
       /\ exists y, p_min_pu_at n' (ramp_down "wind") 0 = Some (Float.Fin y) /\ y <= 0.
Proof.
  assert (H1 : splittable Sample.nodal) by reflexivity.
  assert (H2 : same_generators Sample.market Sample.nodal) by reflexivity.
  assert (H3 : loc (generators Sample.market) "wind"
               = Some (mkGenerator (Some "DE"%string) 100 0 1 0)) by reflexivity.
  split; [exact H1|]. split; [exact H2|]. split; [exact Sample_market_aligned|].
  split; [exact H3|].
  destruct (@C3_ramp_down_bounds _ _ _ _ 0%nat H1 H2 Sample_market_aligned H3)
    as [n' [E [_ [Hmax Hfin]]]].
  exists n'. split; [exact E|]. split; [exact Hmax|].
  assert (Hp : 0 <= 30) by (intro H; discriminate H).
  destruct (Hfin 30 eq_refl Hp eq_refl) as [y [Hy [_ Hneg]]].
  exists y. now split.
Defined.

(** The lower bound of a ramp-up generator is the static [p_min_pu] of
    the original (what holds of line 119 in general). *)
Lemma ramp_up_lower_bound_is_original market redispatch g row t :
  splittable redispatch ->
  same_generators market redispatch ->
  dispatch_aligned market ->
  loc (generators redispatch) g = Some row ->
  exists n',
    split_generators market redispatch = Some n'
    /\ p_min_pu_at n' (ramp_up g) t = Some (Float.Fin (p_min_pu row)).
Proof.
  intros Hsplit Hsame Hal Hrow. exists (split_result market redispatch).
  split; [now apply split_generators_splittable|].
  exact (ramp_up_p_min_pu Hsplit Hsame Hal g t Hrow).
Qed.

(** C4 (failing input).  [coal] has a static [p_min_pu] of 2/5 and is
    dispatched at full load.  The claim has the lower bound of its ramp-up
    generator equal to 0; line 119 drops only [p_max_pu] and passes the
    original's [p_min_pu] on, so the lower bound is 2/5, above the upper
    bound (no headroom: 0). *)
Theorem C4_ramp_up_inherits_p_min_pu :
  option_map p_min_pu (loc (generators Sample.nodal) "coal") = Some (2 # 5)
  /\ exists n',
       split_generators Sample.market Sample.nodal = Some n'
       /\ p_min_pu_at n' (ramp_up "coal") 0 = Some (Float.Fin (2 # 5))
       /\ exists hi, p_max_pu_at n' (ramp_up "coal") 0 = Some (Float.Fin hi)
                     /\ hi == 0.
Proof.
  split; [reflexivity|].
  exists (split_result Sample.market Sample.nodal).
  split; [apply split_generators_splittable; reflexivity|].
  split; [vm_compute; reflexivity|].
  exists (0 # 200). split; [vm_compute; reflexivity | reflexivity].
Qed.



(** The splitter fails exactly when a generator is named like a copy. *)
Lemma split_generators_fails market redispatch :
  ~ splittable redispatch -> split_generators market redispatch = None.
Proof.
  unfold splittable. intros H. rewrite split_generators_eq.
  destruct (is_unique (split_names (index (generators redispatch))));
    [now elim H | reflexivity].
Qed.

(* ================================================================== *)
(** * Bidding-zone aggregation *)

Lemma filter_mapi (A B : Type) (f : string -> A -> B) (P : string * B -> bool)
    (tbl : Table A) :
  filter P (mapi f tbl) =
  mapi f (filter (fun r => P (fst r, f (fst r) (snd r))) tbl).
Proof.
  induction tbl as [|[k a] tbl IH]; simpl; [reflexivity|].
  destruct (P (k, f k a)); simpl; now rewrite IH.
Qed.

Lemma length_mapi (A B : Type) (f : string -> A -> B) (tbl : Table A) :
  length (mapi f tbl) = length tbl.
Proof. unfold mapi. apply length_map. Qed.

(** Lines 76-79 for one table: the rows left are the rewritten rows whose
    two ends are not mapped to one zone. *)
Lemma aggregate_branches_filter (zones : Table (option string)) (df : Table Branch) :
  is_unique (index df) = true ->
  aggregate_branches zones df =
  mapi (fun _ b => rezone_branch zones b)
       (filter (fun r => negb (same_zone zones r)) df).
Proof.
  intros Hu. unfold aggregate_branches.
  rewrite mremove_filter
    by (rewrite index_mapi; now apply is_unique_NoDup).
  apply filter_mapi.
Qed.

Lemma branch_table_aggregate_components zones (n : Network) (c : BranchClass) :
  branch_table c (aggregate_components zones n) =
  aggregate_branches zones (branch_table c n).
Proof. now destruct c. Qed.

(** Lines 82-83 replace the buses and nothing else. *)
Lemma rebuild_buses_branch_table zones (n n' : Network) (c : BranchClass) :
  rebuild_buses zones n = Some n' -> branch_table c n' = branch_table c n.
Proof.
  unfold rebuild_buses.
  destruct (madd (mremove (buses n) (index (buses n))) (zone_buses zones));
    [|discriminate].
  intros H. inversion H. now destruct c.
Qed.

Lemma ref_eqb_same (a b : BusRef) :
  ref_eqb a b = true <-> exists z, a = Some z /\ b = Some z.
Proof.
  destruct a as [x|], b as [y|]; simpl; split; try discriminate;
    try (intros [z [H1 H2]]; discriminate).
  - intros H. apply String.eqb_eq in H. subst. now exists y.
  - intros [z [H1 H2]]. inversion H1; inversion H2; subst. apply String.eqb_refl.
Qed.

(** C6.  For every branch component type, aggregation removes exactly the
    branches whose two ends are mapped to one zone: the branches left are
    the others (rewritten), their number is the number before minus the
    number of same-zone branches, and no branch left has both ends in one
    zone. *)
Theorem C6_internal_branches_removed zones (n : Network) (c : BranchClass) :
  is_unique (index (branch_table c n)) = true ->
  let before := branch_table c n in
  let after := branch_table c (aggregate_components zones n) in
  after = mapi (fun _ b => rezone_branch zones b)
               (filter (fun r => negb (same_zone zones r)) before)
  /\ length after = (length before - length (filter (same_zone zones) before))%nat
  /\ (forall name b,
        In (name, b) after -> ~ exists z, bus0 b = Some z /\ bus1 b = Some z)
  /\ (forall market,
        rebuild_buses zones (aggregate_components zones n) = Some market ->
        branch_table c market = after).
Proof.
  intros Hu before after.
  assert (E : after = mapi (fun _ b => rezone_branch zones b)
                           (filter (fun r => negb (same_zone zones r)) before)).
  { unfold after. rewrite branch_table_aggregate_components.
    now apply aggregate_branches_filter. }
  split; [exact E|]. split; [|split].
  - rewrite E, length_mapi.
    pose proof (filter_length (same_zone zones) before) as H. lia.
  - intros name b Hin Hex. rewrite E in Hin. unfold mapi in Hin.
    apply in_map_iff in Hin. destruct Hin as [[k b0] [Heq Hin]].
    simpl in Heq. inversion Heq; subst. clear Heq.
    apply filter_In in Hin. destruct Hin as [_ Hns].
    apply negb_true_iff in Hns. apply ref_eqb_same in Hex.
    unfold same_zone in Hns. simpl in *. congruence.
  - intros market Hm. exact (rebuild_buses_branch_table _ _ c Hm).
Qed.

Lemma C6_internal_branches_removed_witness :
  is_unique (index (branch_table Line Sample.nodal)) = true
  /\ branch_table Line (aggregate_components (zones_of Sample.nodal) Sample.nodal)
     = [("DE1-FR0"%string, mkBranch (Some "DE"%string) (Some "FR"%string) 300)]
  /\ length (branch_table Line (aggregate_components (zones_of Sample.nodal) Sample.nodal))
     = (2 - 1)%nat.
Proof.
  assert (H : is_unique (index (branch_table Line Sample.nodal)) = true)
    by reflexivity.
  split; [exact H|].
  destruct (C6_internal_branches_removed (zones_of Sample.nodal) Sample.nodal Line H)
    as [E [Hlen _]].
  split; [exact E | exact Hlen].
Defined.

(** ** A network already expressed in zone buses *)

Lemma unique_values_fresh (seen : list (option string)) (l : list string) :
  NoDup l ->
  (forall k, In k l -> ~ In (Some k) seen) ->
  unique_values seen (map Some l) = map Some l.
Proof.
  revert seen. induction l as [|k l IH]; simpl; intros seen Hnd Hfresh;
    [reflexivity|].
  inversion Hnd as [|? ? Hnotin Hnd']; subst.
  assert (E : existsb (opt_eqb (Some k)) seen = false).
  { destruct (existsb (opt_eqb (Some k)) seen) eqn:E; [|reflexivity].
    apply existsb_exists in E. destruct E as [[y|] [Hin Hy]]; simpl in Hy;
      [|discriminate].
    apply String.eqb_eq in Hy. subst y. elim (Hfresh k (or_introl eq_refl) Hin). }
  rewrite E. f_equal. apply IH; [assumption|].
  intros k' Hk' [Heq | Hin].
  - inversion Heq; subst. contradiction.
  - exact (Hfresh k' (or_intror Hk') Hin).
Qed.

Lemma opt_eqb_eq (a b : option string) : opt_eqb a b = true -> a = b.
Proof.
  destruct a, b; simpl; intros H; try discriminate; [|reflexivity].
  apply String.eqb_eq in H. now subst.
Qed.

Section ZoneBuses.

Variable n : Network.
Hypothesis Hzone : zone_is_bus n = true.

Lemma zone_values : map snd (zones_of n) = map Some (index (buses n)).
Proof.
  unfold zone_is_bus in Hzone. unfold zones_of, mapi, index.
  rewrite !map_map. simpl. apply map_ext_in. intros [k b] Hin.
  rewrite forallb_forall in Hzone. now apply opt_eqb_eq, (Hzone (k, b)).
Qed.

Lemma zone_of_bus (k : string) :
  In k (index (buses n)) -> map_zone (zones_of n) (Some k) = Some k.
Proof.
  unfold zone_is_bus in Hzone. rewrite forallb_forall in Hzone.
  intros Hin. simpl. unfold zones_of. rewrite loc_mapi.
  destruct (loc (buses n) k) as [b|] eqn:E.
  - simpl. apply opt_eqb_eq, (Hzone (k, b)). clear - E.
    induction (buses n) as [|[k' b'] tbl IH]; simpl in *; [discriminate|].
    destruct (String.eqb_spec k k') as [-> | Hne].
    + inversion E. now left.
    + right. now apply IH.
  - apply loc_None in E. contradiction.
Qed.

Lemma rezone_valid_branch (b : Branch) :
  valid_ref n (bus0 b) = true -> valid_ref n (bus1 b) = true ->
  rezone_branch (zones_of n) b = b.
Proof.
  destruct b as [[k0|] [k1|] s]; simpl; try discriminate.
  intros H0 H1. apply mem_In in H0, H1. unfold rezone_branch.
  simpl bus0. simpl bus1. now rewrite !zone_of_bus by assumption.
Qed.

Lemma aggregate_wf_branches (df : Table Branch) :
  wf_branches n df = true ->
  aggregate_branches (zones_of n) df = filter (fun r => negb (internal r)) df.
Proof.
  unfold wf_branches. rewrite andb_true_iff, forallb_forall. intros [Hu Hv].
  assert (E : mapi (fun _ b => rezone_branch (zones_of n) b) df = df).
  { unfold mapi. rewrite <- (map_id df) at 2. apply map_ext_in.
    intros [k b] Hin. simpl. f_equal.
    specialize (Hv (k, b) Hin). simpl in Hv. apply andb_true_iff in Hv.
    now apply rezone_valid_branch. }
  unfold aggregate_branches. rewrite E.
  apply mremove_filter. now apply is_unique_NoDup.
Qed.

End ZoneBuses.

(** C7.  On a network whose buses are their own zones, aggregation gives a
    network with the same bus names and, for every branch component type,
    the same branches less those from a bus to itself. *)
Theorem C7_aggregation_idempotent_on_zone_buses (n : Network) :
  zone_is_bus n = true ->
  wf_topology n = true ->
  exists n',
    aggregate_bidding_zones n n = Some n'
    /\ index (buses n') = index (buses n)
    /\ forall c, branch_table c n' = filter (fun r => negb (internal r)) (branch_table c n).
Proof.
  intros Hzone Hwf. unfold wf_topology in Hwf.
  rewrite !andb_true_iff in Hwf. destruct Hwf as [[[Hu Hl] Hk] Ht].
  assert (Erows : index (zone_buses (zones_of n)) = index (buses n)).
  { unfold zone_buses, index at 1. rewrite map_map. simpl.
    rewrite (zone_values n Hzone). unfold unique.
    rewrite unique_values_fresh
      by (try (now apply is_unique_NoDup); intros k _ []).
    rewrite map_map. simpl. apply map_id. }
  unfold aggregate_bidding_zones, rebuild_buses. simpl buses.
  rewrite mremove_all. unfold madd. simpl index at 1. simpl app.
  rewrite Erows, Hu. eexists. split; [reflexivity|]. simpl.
  split; [exact Erows|].
  intros c. destruct c; simpl; now apply aggregate_wf_branches.
Qed.

Lemma C7_aggregation_idempotent_on_zone_buses_witness :
  zone_is_bus Sample.zonal = true
  /\ wf_topology Sample.zonal = true
  /\ exists n',
       aggregate_bidding_zones Sample.zonal Sample.zonal = Some n'
       /\ index (buses n') = ["DE"; "FR"]%string
       /\ index (lines n') = ["DE-FR"]%string.
Proof.
  assert (H1 : zone_is_bus Sample.zonal = true) by reflexivity.
  assert (H2 : wf_topology Sample.zonal = true) by reflexivity.
  split; [exact H1|]. split; [exact H2|].
  destruct (C7_aggregation_idempotent_on_zone_buses Sample.zonal H1 H2)
    as [n' [E [Hb Hc]]].
  exists n'. split; [exact E|]. split; [exact Hb|].
  change (lines n') with (branch_table Line n'). now rewrite (Hc Line).
Defined.

(* ================================================================== *)
(** * The pipeline *)

Lemma after_solve_buses (n n' : Network) (o : SolveOutcome) :
  after_solve n o = Some n' -> buses n' = buses n.
Proof.
  destruct o; simpl; intros H; inversion H; reflexivity.
Qed.

Lemma after_solve_zones (n n' : Network) (o : SolveOutcome) :
  after_solve n o = Some n' -> zones_of n' = zones_of n.
Proof.
  intros H. unfold zones_of. now rewrite (after_solve_buses _ _ H).
Qed.

Section Run.

Variable optimize : string -> SolverOptions -> Network -> SolveOutcome.
Variable input : Network.
Variable sv : string.
Variable settings : PyValue.

Let opts : SolverOptions := snd (set_solver sv settings).
Let r := init optimize input sv settings.

(** Every way [__init__] can go, with what it leaves behind. *)
Lemma init_cases :
  match after_solve input (optimize sv opts input) with
  | None =>
      outcome r = inl (SolverError NetworkModelStage)
      /\ trace r = [Optimize NetworkModelStage sv opts]
      /\ redispatch_model (final r) = None
  | Some nm =>
      match rebuild_buses (zones_of nm) (aggregate_components (zones_of nm) input) with
      | None =>
          outcome r = inl (NotUnique "Bus")
          /\ trace r = events_before sv opts MarketModelStage
          /\ redispatch_model (final r) = None
      | Some m2 =>
          match after_solve m2 (optimize sv opts m2) with
          | None =>
              outcome r = inl (SolverError MarketModelStage)
              /\ trace r = events_before sv opts MarketModelStage
                           ++ [Optimize MarketModelStage sv opts]
              /\ redispatch_model (final r) = None
          | Some m3 =>
              match split_generators m3 input with
              | None =>
                  outcome r = inl (NotUnique "Generator")
                  /\ trace r = events_before sv opts RedispatchModelStage
                  /\ redispatch_model (final r) = Some input
              | Some r1 =>
                  match after_solve r1 (optimize sv opts r1) with
                  | None =>
                      outcome r = inl (SolverError RedispatchModelStage)
                      /\ trace r = events_before sv opts RedispatchModelStage
                                   ++ [Optimize RedispatchModelStage sv opts]
                      /\ redispatch_model (final r) = Some r1
                  | Some r2 =>
                      outcome r = inr tt
                      /\ trace r = events_before sv opts RedispatchModelStage
                                   ++ stage_events sv opts RedispatchModelStage
                      /\ redispatch_model (final r) = Some r2
                  end
              end
          end
      end
  end.
Proof.
  unfold r, init. cbv zeta.
  change (fst (set_solver sv settings)) with sv. fold opts. clearbody opts.
  unfold run_network_model, run_market_model, run_redispatch_model,
    call_optimize, export_model_results, outcome, trace, final, bind, get_self,
    modify, emit, ret, raise.
  repeat
    (cbn [fst snd app solver solver_settings model network_model market_model
          redispatch_model set_network_model set_market_model
          set_redispatch_model];
     match goal with
     | |- context [match after_solve ?n ?o with _ => _ end] =>
         destruct (after_solve n o)
     | |- context [match rebuild_buses ?z ?n with _ => _ end] =>
         destruct (rebuild_buses z n)
     | |- context [match split_generators ?m ?n with _ => _ end] =>
         destruct (split_generators m n)
     end);
    cbn [fst snd app solver solver_settings model network_model market_model
         redispatch_model set_network_model set_market_model
         set_redispatch_model];
    now repeat split.
Qed.

End Run.

(** Case analysis on a statement that follows the branches of a run. *)
Ltac run_cases H :=
  repeat match type of H with
         | match ?x with _ => _ end => destruct x
         end.



(** The calls of a run are among the calls of a complete run, with the
    solver name and options that [set_solver] stored. *)
Lemma trace_events optimize input sv settings (e : Event) :
  In e (trace (init optimize input sv settings)) ->
  In e (events_before sv (snd (set_solver sv settings)) RedispatchModelStage
        ++ stage_events sv (snd (set_solver sv settings)) RedispatchModelStage).
Proof.
  pose proof (init_cases optimize input sv settings) as H. cbv zeta in H.
  run_cases H; destruct H as [_ [Ht _]]; rewrite Ht; simpl; tauto.
Qed.

Lemma py_eq_str_true (v : PyValue) (s : string) :
  py_eq_str v s = true <-> v = PyStr s.
Proof.
  destruct v; simpl; split; try discriminate.
  - intros H. apply String.eqb_eq in H. now subst.
  - intros H. inversion H. apply String.eqb_refl.
Qed.

(** The sample market model is the one a run on the sample network
    builds, and the redispatch model of that run carries the bounds of the
    split. *)
Lemma Sample_market_from_run :
  market_model (final (init Sample.solver_ok Sample.nodal "gurobi" (PyStr "default")))
  = Some Sample.market
  /\ option_map (fun n => (p_min_pu_at n "ocgt" 0, p_min_pu_at n (ramp_up "coal") 0))
       (redispatch_model
          (final (init Sample.solver_ok Sample.nodal "gurobi" (PyStr "default"))))
     = Some (Some Float.PInf, Some (Float.Fin (2 # 5))).
Proof.
  split; vm_compute; reflexivity.
Qed.







(** C10.  Every optimize call of a run, at each of the three stages, is
    given the solver name and the options mapping that [set_solver]
    stored.  The mapping is empty for every solver other than "gurobi" and
    for every settings value other than "default", whatever the caller
    supplied; only "gurobi" with "default" gives the hard-coded,
    non-empty mapping. *)
Theorem C10_solver_options optimize input sv settings s name o :
  In (Optimize s name o) (trace (init optimize input sv settings)) ->
  name = sv
  /\ o = snd (set_solver sv settings)
  /\ (sv <> "gurobi"%string \/ settings <> PyStr "default" -> o = [])
  /\ (sv = "gurobi"%string -> settings = PyStr "default" ->
      o = gurobi_default /\ o <> []).
Proof.
  intros Hin. apply trace_events in Hin.
  assert (E : name = sv /\ o = snd (set_solver sv settings)).
  { simpl in Hin.
    repeat match type of Hin with
           | _ \/ _ => destruct Hin as [Hin | Hin]
           | False => contradiction
           | _ = _ => inversion Hin; clear Hin
           end; now split. }
  destruct E as [-> ->]. split; [reflexivity|]. split; [reflexivity|].
  unfold set_solver. simpl snd. split.
  - intros [Hs | Hd].
    + apply String.eqb_neq in Hs. now rewrite Hs.
    + destruct (String.eqb sv "gurobi"); [|reflexivity].
      destruct (py_eq_str settings "default") eqn:E; [|reflexivity].
      apply py_eq_str_true in E. contradiction.
  - intros -> ->. simpl. split; [reflexivity | discriminate].
Qed.

Lemma C10_solver_options_witness :
  In (Optimize RedispatchModelStage "glpk" [])
     (trace (init Sample.solver_ok Sample.nodal "glpk"
                  (PyDict [("Threads"%string, OInt 8)])))
  /\ snd (set_solver "glpk" (PyDict [("Threads"%string, OInt 8)])) = [].
Proof.
  assert (H : In (Optimize RedispatchModelStage "glpk" [])
                 (trace (init Sample.solver_ok Sample.nodal "glpk"
                              (PyDict [("Threads"%string, OInt 8)]))))
    by (vm_compute; tauto).
  split; [exact H|].
  destruct (C10_solver_options _ _ _ _ _ _ _ H) as [_ [E _]].
  symmetry. exact E.
Defined.

(* ================================================================== *)
(** * Further properties of the aggregation *)

Lemma opt_eqb_spec (a b : option string) : opt_eqb a b = true <-> a = b.
Proof.
  split; [apply opt_eqb_eq|]. intros <-. destruct a; simpl;
    [apply String.eqb_refl | reflexivity].
Qed.

Lemma existsb_opt_eqb (v : option string) (seen : list (option string)) :
  existsb (opt_eqb v) seen = true <-> In v seen.
Proof.
  rewrite existsb_exists. split.
  - intros [x [Hin Hx]]. apply opt_eqb_spec in Hx. now subst.
  - intros Hin. exists v. split; [assumption | now apply opt_eqb_spec].
Qed.






Lemma index_zone_buses (zones : Table (option string)) :
  index (zone_buses zones) = map bus_label (unique (map snd zones)).
Proof.
  unfold zone_buses, index. rewrite map_map. reflexivity.
Qed.

(** Lines 82-83, in closed form: the bus table of the result is the table
    of zone buses, when their names are distinct. *)
Lemma rebuild_buses_eq zones (n : Network) :
  rebuild_buses zones n =
  if is_unique (index (zone_buses zones))
  then Some (mkNetwork (zone_buses zones) (generators n) (loads n)
                       (storage_units n) (stores n) (shunt_impedances n)
                       (lines n) (links n) (transformers n) (generators_t n))
  else None.
Proof.
  unfold rebuild_buses, madd. rewrite mremove_all. simpl.
  now destruct (is_unique (index (zone_buses zones))).
Qed.








Lemma zone_values_of (n : Network) :
  map snd (zones_of n) = map (fun r => country (snd r)) (buses n).
Proof.
  unfold zones_of, mapi. rewrite map_map. reflexivity.
Qed.






Lemma loc_In (A : Type) (tbl : Table A) (k : string) (a : A) :
  loc tbl k = Some a -> In (k, a) tbl.
Proof.
  induction tbl as [|[k' a'] tbl IH]; simpl; [discriminate|].
  destruct (String.eqb_spec k k') as [-> | Hne].
  - intros H. inversion H. now left.
  - intros H. right. now apply IH.
Qed.

Lemma unique_values_seen (v : option string) (seen vs : list (option string)) :
  In v seen -> (forall x, In x vs -> x = v) -> unique_values seen vs = [].
Proof.
  intros Hseen. induction vs as [|x vs IH]; simpl; intros Hall; [reflexivity|].
  rewrite (Hall x (or_introl eq_refl)).
  apply existsb_opt_eqb in Hseen. rewrite Hseen. apply IH.
  intros y Hy. apply Hall. now right.
Qed.

Lemma unique_constant (v : option string) (vs : list (option string)) :
  vs <> [] -> (forall x, In x vs -> x = v) -> unique vs = [v].
Proof.
  destruct vs as [|x vs]; [congruence|]. intros _ Hall. unfold unique. simpl.
  rewrite (Hall x (or_introl eq_refl)). f_equal.
  apply unique_values_seen with (v := v); [now left|].
  intros y Hy. apply Hall. now right.
Qed.

Section SingleZone.

Variable n : Network.
Variable z : string.
Hypothesis Hall : forallb (fun r => opt_eqb (country (snd r)) (Some z)) (buses n) = true.

Lemma single_zone_of_bus (k : string) :
  In k (index (buses n)) -> map_zone (zones_of n) (Some k) = Some z.
Proof.
  intros Hin. simpl. unfold zones_of. rewrite loc_mapi.
  destruct (In_loc _ _ Hin) as [b Hb]. rewrite Hb. simpl.
  rewrite forallb_forall in Hall.
  exact (opt_eqb_eq _ _ (Hall (k, b) (loc_In _ _ Hb))).
Qed.

Lemma single_zone_branches (df : Table Branch) :
  wf_branches n df = true -> aggregate_branches (zones_of n) df = [].
Proof.
  unfold wf_branches. rewrite andb_true_iff, forallb_forall. intros [Hu Hv].
  rewrite (aggregate_branches_filter _ _ Hu).
  rewrite filter_none; [reflexivity|].
  intros [k b] Hin. specialize (Hv (k, b) Hin). simpl in Hv.
  apply andb_true_iff in Hv. destruct Hv as [H0 H1].
  destruct b as [[k0|] [k1|] s]; simpl in H0, H1; try discriminate.
  apply mem_In in H0, H1. unfold same_zone. cbn [snd bus0 bus1].
  rewrite !single_zone_of_bus by assumption. simpl.
  now rewrite String.eqb_refl.
Qed.

End SingleZone.

(** X4.  When every bus lies in one zone, the market model is a copper
    plate: a single bus named after the zone and no branch of any class. *)
Theorem single_zone_copper_plate (n : Network) (z : string) :
  buses n <> [] ->
  forallb (fun r => opt_eqb (country (snd r)) (Some z)) (buses n) = true ->
  wf_topology n = true ->
  exists n',
    aggregate_bidding_zones n n = Some n'
    /\ index (buses n') = [z]
    /\ forall c, branch_table c n' = [].
Proof.
  intros Hne Hall Hwf. unfold wf_topology in Hwf.
  rewrite !andb_true_iff in Hwf. destruct Hwf as [[[_ Hl] Hk] Ht].
  assert (Eidx : index (zone_buses (zones_of n)) = [z]).
  { rewrite index_zone_buses, zone_values_of.
    rewrite unique_constant with (v := Some z); [reflexivity | |].
    - destruct (buses n); [congruence | discriminate].
    - intros x Hx. apply in_map_iff in Hx. destruct Hx as [[k b] [<- Hin]].
      rewrite forallb_forall in Hall. exact (opt_eqb_eq _ _ (Hall (k, b) Hin)). }
  unfold aggregate_bidding_zones. cbv zeta. rewrite rebuild_buses_eq, Eidx.
  simpl is_unique. cbn iota. eexists. split; [reflexivity|]. simpl.
  split; [exact Eidx|].
  intros c. destruct c; simpl; now apply single_zone_branches with (z := z).
Qed.

Lemma single_zone_copper_plate_witness :
  buses Cases.one_zone <> []
  /\ forallb (fun r => opt_eqb (country (snd r)) (Some "DE"%string))
             (buses Cases.one_zone) = true
  /\ wf_topology Cases.one_zone = true
  /\ exists n',
       aggregate_bidding_zones Cases.one_zone Cases.one_zone = Some n'
       /\ index (buses n') = ["DE"%string]
       /\ lines n' = [].
Proof.
  assert (H1 : buses Cases.one_zone <> []) by discriminate.
  assert (H2 : forallb (fun r => opt_eqb (country (snd r)) (Some "DE"%string))
                       (buses Cases.one_zone) = true) by reflexivity.
  assert (H3 : wf_topology Cases.one_zone = true) by reflexivity.
  split; [exact H1|]. split; [exact H2|]. split; [exact H3|].
  destruct (@single_zone_copper_plate _ _ H1 H2 H3) as [n' [E [Hb Hc]]].
  exists n'. split; [exact E|]. split; [exact Hb | exact (Hc Line)].
Defined.

(* ================================================================== *)
(** * Further properties of the splitter *)

(** X5.  The two copies of a generator keep its bus, its capacity and its
    marginal cost, and the original row is left as it was. *)
Theorem split_copies_keep_static market redispatch g row :
  splittable redispatch ->
  loc (generators redispatch) g = Some row ->
  exists n' u d,
    split_generators market redispatch = Some n'
    /\ loc (generators n') g = Some row
    /\ loc (generators n') (ramp_up g) = Some u
    /\ loc (generators n') (ramp_down g) = Some d
    /\ (bus u = bus row /\ p_nom u = p_nom row /\ marginal_cost u = marginal_cost row)
    /\ (bus d = bus row /\ p_nom d = p_nom row /\ marginal_cost d = marginal_cost row).
Proof.
  intros Hsplit Hrow.
  exists (split_result market redispatch).
  eexists. eexists.
  split; [now apply split_generators_splittable|].
  split; [exact (loc_split_original market redispatch g Hrow)|].
  split; [exact (loc_split_up market Hsplit g Hrow)|].
  split; [exact (loc_split_down market Hsplit g Hrow)|].
  simpl. repeat split.
Qed.

Lemma split_copies_keep_static_witness :
  splittable Sample.nodal
  /\ loc (generators Sample.nodal) "coal"
     = Some (mkGenerator (Some "FR0"%string) 200 (2 # 5) 1 30)
  /\ exists n' u,
       split_generators Sample.market Sample.nodal = Some n'
       /\ loc (generators n') (ramp_up "coal") = Some u
       /\ marginal_cost u = 30.
Proof.
  assert (H1 : splittable Sample.nodal) by reflexivity.
  assert (H2 : loc (generators Sample.nodal) "coal"
               = Some (mkGenerator (Some "FR0"%string) 200 (2 # 5) 1 30))
    by reflexivity.
  split; [exact H1|]. split; [exact H2|].
  destruct (@split_copies_keep_static Sample.market _ _ _ H1 H2)
    as [n' [u [d [E [_ [Hu [_ [[_ [_ Hc]] _]]]]]]]].
  exists n', u. split; [exact E|]. split; [exact Hu | exact Hc].
Defined.




(** X7.  A generator for which the market model has no dispatch column
    (the market model was not solved) is pinned to 0, and both of its
    copies get a NaN bound: the fallback of line 99 is not applied on
    lines 113 and 114. *)
Theorem missing_dispatch_bounds market redispatch g row t :
  splittable redispatch ->
  same_generators market redispatch ->
  dispatch_aligned market ->
  loc (generators market) g = Some row ->
  loc (t_p (generators_t market)) g = None ->
  exists n',
    split_generators market redispatch = Some n'
    /\ p_min_pu_at n' g t = Some (Float.Fin 0)
    /\ p_max_pu_at n' g t = Some (Float.Fin 0)
    /\ p_max_pu_at n' (ramp_up g) t = Some Float.NaN
    /\ p_min_pu_at n' (ramp_down g) t = Some Float.NaN.
Proof.
  intros Hsplit Hsame Hal Hrow Hmiss.
  exists (split_result market redispatch).
  split; [now apply split_generators_splittable|].
  assert (Hcell : cell (t_p (generators_t market)) g t = Float.NaN)
    by (unfold cell; now rewrite Hmiss).
  destruct (original_bounds Hsplit Hsame Hal g t Hrow) as [Hmin Hmax].
  rewrite (cell_realized_ratio market g t Hrow), Hcell in Hmin, Hmax.
  split; [exact Hmin|]. split; [exact Hmax|]. split.
  - rewrite (ramp_up_p_max_pu Hsplit Hsame g t Hrow), (cell_up market g t Hrow), Hcell.
    f_equal. unfold Float.sub. simpl Float.neg.
    now destruct (Float.mul (cell (as_dense p_max_pu t_p_max_pu market) g t)
                            (Float.Fin (p_nom row))).
  - now rewrite (ramp_down_p_min_pu Hsplit Hsame g t Hrow),
      (cell_down market g t Hrow), Hcell.
Qed.

Lemma missing_dispatch_bounds_witness :
  splittable Sample.nodal
  /\ same_generators Sample.nodal Sample.nodal
  /\ dispatch_aligned Sample.nodal
  /\ loc (generators Sample.nodal) "wind" = Some (mkGenerator (Some "DE0"%string) 100 0 1 0)
  /\ loc (t_p (generators_t Sample.nodal)) "wind" = None
  /\ exists n',
       split_generators Sample.nodal Sample.nodal = Some n'
       /\ p_max_pu_at n' "wind" 0 = Some (Float.Fin 0)
       /\ p_max_pu_at n' (ramp_up "wind") 0 = Some Float.NaN.
Proof.
  assert (H1 : splittable Sample.nodal) by reflexivity.
  assert (H2 : same_generators Sample.nodal Sample.nodal) by reflexivity.
  assert (H3 : dispatch_aligned Sample.nodal) by (intros k Hk; elim Hk).
  assert (H4 : loc (generators Sample.nodal) "wind"
               = Some (mkGenerator (Some "DE0"%string) 100 0 1 0)) by reflexivity.
  assert (H5 : loc (t_p (generators_t Sample.nodal)) "wind" = None) by reflexivity.
  split; [exact H1|]. split; [exact H2|]. split; [exact H3|].
  split; [exact H4|]. split; [exact H5|].
  destruct (@missing_dispatch_bounds _ _ _ _ 0%nat H1 H2 H3 H4 H5)
    as [n' [E [_ [Hmax [Hup _]]]]].
  exists n'. split; [exact E|]. split; [exact Hmax | exact Hup].
Defined.



(* ================================================================== *)
(** * Further properties of the pipeline *)

(** X9.  The calls of a run are an initial part of the six calls of a
    complete run (each stage is solved, then exported, in the order
    network, market, redispatch, and none twice), and a run ends normally
    exactly when it has made all six. *)
Theorem run_is_prefix_of_complete_run optimize input sv settings :
  let r := init optimize input sv settings in
  let opts := snd (set_solver sv settings) in
  let complete := events_before sv opts RedispatchModelStage
                  ++ stage_events sv opts RedispatchModelStage in
  (exists rest, complete = trace r ++ rest)
  /\ (outcome r = inr tt <-> trace r = complete).
Proof.
  intros r opts complete.
  pose proof (init_cases optimize input sv settings) as H. cbv zeta in H.
  fold opts in H. fold r in H.
  run_cases H; destruct H as [Ho [Ht _]]; rewrite Ho, Ht; unfold complete;
    (split; [eexists; simpl; reflexivity | split; intros E; try discriminate E;
                                          try reflexivity]).
Qed.

Lemma aggregate_buses_of_solved (n nm m : Network) (o : SolveOutcome) :
  after_solve n o = Some nm ->
  aggregate_bidding_zones nm m = aggregate_bidding_zones n m.
Proof.
  intros H. unfold aggregate_bidding_zones. cbv zeta.
  now rewrite (after_solve_zones _ _ H).
Qed.





Section SolvedMarket.

Variables nm input m : Network.
Variable p : string -> nat -> Q.
Hypothesis Hagg : aggregate_bidding_zones nm input = Some m.

Let market := assign_solution m p.






End SolvedMarket.



(* ================================================================== *)
(** * The results folder *)

Lemma mem_path_In (p : Path) (l : list Path) : mem_path p l = true <-> In p l.
Proof.
  unfold mem_path. destruct (in_dec path_dec p l); split; intros H;
    try reflexivity; try assumption; try discriminate; contradiction.
Qed.

Lemma mem_path_false (p : Path) (l : list Path) : mem_path p l = false <-> ~ In p l.
Proof.
  unfold mem_path. destruct (in_dec path_dec p l); split; intros H;
    try reflexivity; try assumption; try discriminate; contradiction.
Qed.

Lemma is_prefix_spec (p q : Path) : is_prefix p q = true <-> exists r, q = p ++ r.
Proof.
  revert q. induction p as [|a p IH]; intros q; simpl.
  - split; [intros _; now exists q | reflexivity].
  - destruct q as [|b q].
    + split; [discriminate | intros [r H]; discriminate H].
    + rewrite andb_true_iff, String.eqb_eq, IH. split.
      * intros [-> [r ->]]. now exists r.
      * intros [r H]. inversion H. split; [reflexivity | now exists r].
Qed.

Lemma is_prefix_refl (p : Path) : is_prefix p p = true.
Proof. apply is_prefix_spec. exists []. now rewrite app_nil_r. Qed.

Lemma is_prefix_app (p r : Path) : is_prefix p (p ++ r) = true.
Proof. apply is_prefix_spec. now exists r. Qed.

Lemma is_prefix_trans (p q r : Path) :
  is_prefix p q = true -> is_prefix q r = true -> is_prefix p r = true.
Proof.
  rewrite !is_prefix_spec. intros [a ->] [b ->]. exists (a ++ b).
  now rewrite app_assoc.
Qed.

Lemma is_prefix_length (p q : Path) :
  is_prefix p q = true -> (length p <= length q)%nat.
Proof.
  rewrite is_prefix_spec. intros [r ->]. rewrite length_app. lia.
Qed.

Lemma is_prefix_antisym (p q : Path) :
  is_prefix p q = true -> is_prefix q p = true -> p = q.
Proof.
  intros H1 H2. pose proof (is_prefix_length _ _ H2) as Hl.
  apply is_prefix_spec in H1. destruct H1 as [r ->].
  rewrite length_app in Hl. destruct r; [now rewrite app_nil_r|]. simpl in Hl. lia.
Qed.

Lemma In_ancestors (p q : Path) :
  In p (ancestors q) <-> is_prefix p q = true /\ p <> q.
Proof.
  revert p. induction q as [|b q IH]; intros p; simpl.
  - split; [contradiction|]. intros [H Hne]. destruct p; [congruence | discriminate].
  - split.
    + intros [<- | H].
      * split; [reflexivity | discriminate].
      * apply in_map_iff in H. destruct H as [p' [<- Hp']]. apply IH in Hp'.
        destruct Hp' as [H1 H2]. simpl. rewrite String.eqb_refl, H1.
        split; [reflexivity | congruence].
    + intros [H Hne]. destruct p as [|a p]; [now left|]. right.
      simpl in H. apply andb_true_iff in H. destruct H as [Ha Hp].
      apply String.eqb_eq in Ha. subst a. apply in_map, IH.
      split; [assumption | congruence].
Qed.

Lemma removelast_snoc (p : Path) (x : string) : removelast (p ++ [x]) = p.
Proof. apply removelast_last. Qed.

Lemma is_prefix_removelast (p : Path) :
  p <> [] -> is_prefix p (removelast p) = false.
Proof.
  intros Hne. destruct (is_prefix p (removelast p)) eqn:E; [|reflexivity].
  apply is_prefix_length in E.
  destruct (exists_last Hne) as [p' [x ->]]. rewrite removelast_last in E.
  rewrite length_app in E. simpl in E. lia.
Qed.

(** In a well-formed file system every path above an entry is a directory. *)
Lemma wf_fs_ancestor (fs : FileSystem) (p q : Path) :
  wf_fs fs = true ->
  In q (dirs fs) \/ In q (files fs) ->
  is_prefix p q = true -> p <> q -> is_dir fs p = true.
Proof.
  unfold wf_fs. rewrite forallb_forall. intros Hwf Hq Hp Hne.
  specialize (Hwf q (proj2 (in_app_iff _ _ _) Hq)).
  rewrite forallb_forall in Hwf. apply Hwf, In_ancestors. now split.
Qed.

Lemma wf_fs_intro (fs : FileSystem) :
  (forall p q, In q (dirs fs) \/ In q (files fs) ->
               is_prefix p q = true -> p <> q -> is_dir fs p = true) ->
  wf_fs fs = true.
Proof.
  intros H. unfold wf_fs. apply forallb_forall. intros q Hq.
  apply forallb_forall. intros p Hp. apply In_ancestors in Hp.
  apply in_app_iff in Hq. now apply (H p q).
Qed.

Lemma is_dir_In (fs : FileSystem) (p : Path) :
  is_dir fs p = true <-> p = [] \/ In p (dirs fs).
Proof.
  unfold is_dir. destruct p as [|a p].
  - split; [now left | reflexivity].
  - rewrite mem_path_In. split; [now right | intros [H | H]; [discriminate | exact H]].
Qed.

Lemma mkdir_inv (p : Path) (fs fs' : FileSystem) :
  mkdir p fs = inr fs' ->
  path_exists fs p = false
  /\ is_dir fs (removelast p) = true
  /\ fs' = mkFS (p :: dirs fs) (files fs).
Proof.
  unfold mkdir. destruct (path_exists fs p); [discriminate|].
  destruct (is_dir fs (removelast p)).
  - intros H. inversion H. now repeat split.
  - destruct (is_file fs (removelast p)); discriminate.
Qed.

Lemma rmtree_inv (p : Path) (fs fs' : FileSystem) :
  rmtree p fs = inr fs' ->
  is_dir fs p = true
  /\ fs' = mkFS (filter (fun q => negb (is_prefix p q)) (dirs fs))
                (filter (fun q => negb (is_prefix p q)) (files fs)).
Proof.
  unfold rmtree. destruct (is_dir fs p).
  - intros H. inversion H. now split.
  - destruct (is_file fs p); discriminate.
Qed.

Lemma path_exists_false (fs : FileSystem) (p : Path) :
  path_exists fs p = false <-> p <> [] /\ ~ In p (dirs fs) /\ ~ In p (files fs).
Proof.
  unfold path_exists, is_file. rewrite orb_false_iff, mem_path_false. split.
  - intros [H1 H2]. destruct p as [|a p]; [discriminate H1|].
    simpl in H1. apply mem_path_false in H1. repeat split; [discriminate | assumption ..].
  - intros [Hne [H1 H2]]. split; [|assumption].
    destruct p as [|a p]; [congruence|]. simpl. now apply mem_path_false.
Qed.

Lemma proper_prefix_removelast (a p : Path) :
  is_prefix a p = true -> a <> p -> is_prefix a (removelast p) = true.
Proof.
  intros H Hne. apply is_prefix_spec in H. destruct H as [r ->].
  destruct r as [|x r]; [now rewrite app_nil_r in Hne|].
  destruct (@exists_last _ (x :: r)) as [r' [y E]]; [discriminate|].
  rewrite E, app_assoc, removelast_last. apply is_prefix_app.
Qed.

Lemma mkdir_wf (p : Path) (fs fs' : FileSystem) :
  wf_fs fs = true -> mkdir p fs = inr fs' -> wf_fs fs' = true.
Proof.
  intros Hwf H. apply mkdir_inv in H. destruct H as [_ [Hpar ->]].
  apply wf_fs_intro. simpl. intros a q Hq Ha Hne.
  assert (Hmono : forall b, is_dir fs b = true ->
                            is_dir (mkFS (p :: dirs fs) (files fs)) b = true).
  { intros b Hb. apply is_dir_In in Hb. apply is_dir_In. simpl. tauto. }
  destruct Hq as [[<- | Hq] | Hq].
  - pose proof (proper_prefix_removelast Ha Hne) as Ha'.
    destruct (path_dec a (removelast p)) as [-> | Hne']; [now apply Hmono|].
    apply Hmono. apply is_dir_In in Hpar. destruct Hpar as [E | Hin].
    + rewrite E in Ha'. destruct a; [reflexivity | discriminate Ha'].
    + apply (@wf_fs_ancestor fs a (removelast p)); auto.
  - apply Hmono. apply (@wf_fs_ancestor fs a q); auto.
  - apply Hmono. apply (@wf_fs_ancestor fs a q); auto.
Qed.

Lemma rmtree_wf (p : Path) (fs fs' : FileSystem) :
  wf_fs fs = true -> rmtree p fs = inr fs' -> wf_fs fs' = true.
Proof.
  intros Hwf H. apply rmtree_inv in H. destruct H as [_ ->].
  apply wf_fs_intro. simpl. intros a q Hq Ha Hne.
  assert (Hq' : (In q (dirs fs) \/ In q (files fs)) /\ is_prefix p q = false).
  { destruct Hq as [Hq | Hq]; apply filter_In in Hq; destruct Hq as [Hq Hp];
      apply negb_true_iff in Hp; tauto. }
  destruct Hq' as [Hin Hp].
  pose proof (@wf_fs_ancestor fs a q Hwf Hin Ha Hne) as Hd.
  apply is_dir_In in Hd. apply is_dir_In. simpl.
  destruct Hd as [-> | Hd]; [now left|]. right.
  apply filter_In. split; [assumption|]. apply negb_true_iff.
  destruct (is_prefix p a) eqn:E; [|reflexivity].
  rewrite (is_prefix_trans _ _ _ E Ha) in Hp. discriminate Hp.
Qed.

(** X12.  [init_directory] leaves the path in place; with
    [empty_directory] the path is then a directory with nothing below it;
    whatever is not below the path is as it was; and the file system stays
    well formed. *)
Theorem init_directory_post path e fs fs' :
  wf_fs fs = true ->
  init_directory path e fs = inr fs' ->
  wf_fs fs' = true
  /\ path_exists fs' path = true
  /\ (e = true ->
      is_dir fs' path = true
      /\ forall q, is_prefix path q = true -> q <> path ->
                   ~ In q (dirs fs') /\ ~ In q (files fs'))
  /\ (forall q, is_prefix path q = false ->
                (In q (dirs fs') <-> In q (dirs fs))
                /\ (In q (files fs') <-> In q (files fs))).
Proof.
  intros Hwf. unfold init_directory.
  assert (Hnew : forall fs0 fs1,
             wf_fs fs0 = true -> mkdir path fs0 = inr fs1 ->
             (forall q, is_prefix path q = true -> q <> path ->
                        ~ In q (dirs fs0) /\ ~ In q (files fs0)) ->
             wf_fs fs1 = true
             /\ path_exists fs1 path = true
             /\ is_dir fs1 path = true
             /\ (forall q, is_prefix path q = true -> q <> path ->
                           ~ In q (dirs fs1) /\ ~ In q (files fs1))
             /\ (forall q, is_prefix path q = false ->
                           (In q (dirs fs1) <-> In q (dirs fs0))
                           /\ (In q (files fs1) <-> In q (files fs0)))).
  { intros fs0 fs1 Hwf0 Hmk Hbelow. pose proof (mkdir_wf _ _ Hwf0 Hmk) as Hwf1.
    apply mkdir_inv in Hmk. destruct Hmk as [Hex [_ ->]].
    assert (Hd : is_dir (mkFS (path :: dirs fs0) (files fs0)) path = true)
      by (apply is_dir_In; simpl; tauto).
    split; [exact Hwf1|]. split; [unfold path_exists; now rewrite Hd|].
    split; [exact Hd|]. split.
    - intros q Hq Hne. simpl. destruct (Hbelow q Hq Hne) as [H1 H2].
      split; [|assumption]. intros [E | Hin]; [congruence | contradiction].
    - intros q Hq. simpl. split; [|tauto]. split; [|tauto].
      intros [<- | Hin]; [|assumption]. rewrite is_prefix_refl in Hq. discriminate. }
  destruct (path_exists fs path) eqn:Hex.
  - destruct e.
    + destruct (rmtree path fs) as [err|fs1] eqn:Hrm; [discriminate|].
      intros Hmk. pose proof (rmtree_wf _ _ Hwf Hrm) as Hwf1.
      pose proof (rmtree_inv _ _ Hrm) as [_ E1].
      destruct (Hnew fs1 fs' Hwf1 Hmk) as [H1 [H2 [H3 [H4 H5]]]].
      { intros q Hq _. subst fs1. simpl.
        split; intros Hin; apply filter_In in Hin; destruct Hin as [_ Hp];
          rewrite Hq in Hp; discriminate Hp. }
      split; [exact H1|]. split; [exact H2|]. split; [intros _; now split|].
      intros q Hq. destruct (H5 q Hq) as [Hd Hf]. rewrite Hd, Hf. subst fs1. simpl.
      rewrite !filter_In, Hq. simpl. tauto.
    + intros H. inversion H. subst fs'. split; [exact Hwf|].
      split; [exact Hex|]. split; [discriminate|]. intros q _. tauto.
  - intros Hmk. destruct (Hnew fs fs' Hwf Hmk) as [H1 [H2 [H3 [H4 H5]]]].
    + intros q Hq Hne.
      assert (Hnd : is_dir fs path = false).
      { unfold path_exists in Hex. now apply orb_false_iff in Hex. }
      split; intros Hin;
        rewrite (@wf_fs_ancestor fs path q Hwf) in Hnd; auto; discriminate.
    + split; [exact H1|]. split; [exact H2|]. split; [intros _; now split | exact H5].
Qed.

Lemma init_directory_post_witness :
  wf_fs (mkFS [["results"%string]; ["results"; "old"]%string]
              [["results"; "old"; "buses.csv"]%string]) = true
  /\ exists fs',
       init_directory ["results"; "old"]%string true
         (mkFS [["results"%string]; ["results"; "old"]%string]
               [["results"; "old"; "buses.csv"]%string]) = inr fs'
       /\ path_exists fs' ["results"; "old"]%string = true
       /\ files fs' = [].
Proof.
  assert (H1 : wf_fs (mkFS [["results"%string]; ["results"; "old"]%string]
                           [["results"; "old"; "buses.csv"]%string]) = true)
    by reflexivity.
  split; [exact H1|].
  destruct (init_directory ["results"; "old"]%string true
              (mkFS [["results"%string]; ["results"; "old"]%string]
                    [["results"; "old"; "buses.csv"]%string])) as [err|fs'] eqn:E;
    [discriminate E|].
  exists fs'. split; [reflexivity|].
  destruct (@init_directory_post _ _ _ _ H1 E) as [_ [Hex _]].
  split; [exact Hex|]. vm_compute in E. inversion E. reflexivity.
Defined.

(** X13.  Without [empty_directory] nothing is removed and no file is
    touched: the only change is the new directory when the path did not
    exist.  Calling [init_directory] again changes nothing. *)
Theorem init_directory_keeps path fs fs' :
  init_directory path false fs = inr fs' ->
  (forall q, In q (dirs fs') <-> In q (dirs fs) \/ (q = path /\ path_exists fs path = false))
  /\ files fs' = files fs
  /\ init_directory path false fs' = inr fs'.
Proof.
  unfold init_directory. destruct (path_exists fs path) eqn:Hex.
  - intros H. inversion H. subst fs'. rewrite Hex.
    split; [intros q; split; [tauto | intros [Hq | [_ Hq]]; [exact Hq | discriminate Hq]]|].
    now split.
  - intros Hmk. apply mkdir_inv in Hmk. destruct Hmk as [_ [_ ->]]. simpl.
    split; [intros q; split; [intros [<- | Hq]; tauto | intros [Hq | [-> _]]; tauto]|].
    split; [reflexivity|].
    assert (E : path_exists (mkFS (path :: dirs fs) (files fs)) path = true).
    { unfold path_exists.
      replace (is_dir (mkFS (path :: dirs fs) (files fs)) path) with true;
        [reflexivity|].
      symmetry. apply is_dir_In. simpl. tauto. }
    now rewrite E.
Qed.

Lemma init_directory_keeps_witness :
  exists fs',
    init_directory ["results"%string] false (mkFS [] [["notes.txt"%string]]) = inr fs'
    /\ files fs' = [["notes.txt"%string]]
    /\ init_directory ["results"%string] false fs' = inr fs'.
Proof.
  destruct (init_directory ["results"%string] false (mkFS [] [["notes.txt"%string]]))
    as [err|fs'] eqn:E; [discriminate E|].
  exists fs'. split; [reflexivity|].
  destruct (@init_directory_keeps _ _ _ E) as [_ [Hf Hi]].
  split; [exact Hf | exact Hi].
Defined.

(** X14.  When [init_directory] raises and when it does not.  A path that
    does not exist is made if its parent is a directory and raises
    otherwise (the parents are not created).  A path that exists as a file
    is accepted as it is without [empty_directory], and raises
    [NotADirectoryError] with it. *)
Theorem init_directory_errors path fs :
  (path_exists fs path = false ->
   forall e,
     if is_dir fs (removelast path)
     then init_directory path e fs = inr (mkFS (path :: dirs fs) (files fs))
     else exists err, init_directory path e fs = inl err)
  /\ (is_file fs path = true -> is_dir fs path = false ->
      init_directory path false fs = inr fs
      /\ init_directory path true fs = inl NotADirectoryError).
Proof.
  unfold init_directory. split.
  - intros Hex e. rewrite Hex. unfold mkdir. rewrite Hex.
    destruct (is_dir fs (removelast path)); [reflexivity|].
    destruct (is_file fs (removelast path)); eexists; reflexivity.
  - intros Hf Hd. unfold path_exists. rewrite Hf, Hd. simpl.
    split; [reflexivity|]. unfold rmtree. now rewrite Hd, Hf.
Qed.

Lemma length_append (a b : string) :
  String.length (a ++ b) = (String.length a + String.length b)%nat.
Proof.
  induction a as [|c a IH]; simpl; [reflexivity | now rewrite IH].
Qed.

Lemma substring_append (a b : string) :
  substring 0 (String.length a) (a ++ b) = a.
Proof.
  induction a as [|c a IH]; simpl.
  - now destruct b.
  - now rewrite IH.
Qed.

Lemma substring_0_0 (s : string) : substring 0 0 s = EmptyString.
Proof. now destruct s. Qed.

(** X15.  The folder of a network is its file name without the last three
    characters, whatever they are: a three-character extension such as
    [".nc"] is cut off exactly, and a name of at most three characters
    leaves the empty name. *)
Theorem drop_last3_extension (base ext : string) :
  (String.length ext = 3%nat -> drop_last3 (base ++ ext) = base)
  /\ ((String.length base <= 3)%nat -> drop_last3 base = EmptyString).
Proof.
  unfold drop_last3. split.
  - intros H. rewrite length_append, H.
    replace (String.length base + 3 - 3)%nat with (String.length base) by lia.
    apply substring_append.
  - intros H. replace (String.length base - 3)%nat with 0%nat by lia.
    apply substring_0_0.
Qed.

Lemma is_prefix_snoc_parent (p : Path) (x : string) : is_prefix (p ++ [x]) p = false.
Proof.
  rewrite <- (removelast_last p x) at 2. apply is_prefix_removelast.
  now destruct p.
Qed.

Lemma export_to_csv_folder_wf (path : Path) (written : list string) (fs : FileSystem) :
  wf_fs fs = true -> is_dir fs path = true ->
  wf_fs (export_to_csv_folder path written fs) = true.
Proof.
  intros Hwf Hd. apply wf_fs_intro. unfold export_to_csv_folder. simpl.
  intros a q Hq Ha Hne.
  assert (Hsame : forall b, is_dir (mkFS (dirs fs)
                     (map (fun f => path ++ [f]) written
                      ++ filter (fun q0 => negb (mem_path q0
                                   (map (fun f => path ++ [f]) written)))
                                (files fs))) b = is_dir fs b)
    by (intros b; now destruct b).
  rewrite Hsame.
  destruct Hq as [Hq | Hq].
  - apply (@wf_fs_ancestor fs a q); auto.
  - apply in_app_iff in Hq. destruct Hq as [Hq | Hq].
    + apply in_map_iff in Hq. destruct Hq as [f [<- _]].
      pose proof (proper_prefix_removelast Ha Hne) as Ha'.
      rewrite removelast_last in Ha'.
      destruct (path_dec a path) as [-> | Hne']; [exact Hd|].
      apply is_dir_In in Hd. destruct Hd as [-> | Hd].
      * destruct a; [reflexivity | discriminate Ha'].
      * apply (@wf_fs_ancestor fs a path); auto.
    + apply filter_In in Hq. destruct Hq as [Hq _].
      apply (@wf_fs_ancestor fs a q); auto.
Qed.

(** X16.  After an export the folder of the model holds exactly the files
    that were written: whatever was there before is gone.  Outside that
    folder no file is removed or changed and no directory is removed (the
    folders of the other models included); the only directory that may be
    new there is the folder of the network. *)
Theorem export_files_post results_folder network_name model_name written fs fs' :
  plain_name (drop_last3 network_name) = true ->
  plain_name model_name = true ->
  wf_fs fs = true ->
  export_files results_folder network_name model_name written fs = inr fs' ->
  let dest := export_path results_folder network_name model_name in
  wf_fs fs' = true
  /\ is_dir fs' dest = true
  /\ (forall q, is_prefix dest q = true -> q <> dest ->
                ~ In q (dirs fs')
                /\ (In q (files fs') <-> exists f, In f written /\ q = dest ++ [f]))
  /\ (forall q, is_prefix dest q = false ->
                (In q (files fs') <-> In q (files fs))
                /\ (In q (dirs fs') <->
                    In q (dirs fs) \/ q = results_folder ++ [drop_last3 network_name])).
Proof.
  intros _ _ Hwf. unfold export_files, export_path. cbv zeta.
  set (path := results_folder ++ [drop_last3 network_name]).
  set (dest := path ++ [model_name]).
  destruct (init_directory path false fs) as [err|fs1] eqn:E1; [discriminate|].
  destruct (init_directory dest true fs1) as [err|fs2] eqn:E2; [discriminate|].
  intros H. inversion H as [Hfs']. clear H Hfs'.
  destruct (init_directory_post _ _ _ Hwf E1) as [Hwf1 [Hex1 _]].
  destruct (init_directory_keeps _ _ E1) as [Hdirs [Hfiles _]].
  destruct (init_directory_post _ _ _ Hwf1 E2) as [Hwf2 [_ [Hempty Hframe]]].
  destruct (Hempty eq_refl) as [Hd2 Hbelow].
  assert (Hpath : In path (dirs fs1)).
  { assert (Hd : is_dir fs1 path = true).
    { unfold init_directory in E2. destruct (path_exists fs1 dest) eqn:Hex.
      - destruct (path_dec path dest) as [E | Hne].
        + apply (f_equal (@length string)) in E. unfold dest in E.
          rewrite length_app in E. simpl in E. lia.
        + unfold path_exists in Hex. apply orb_true_iff in Hex.
          apply (@wf_fs_ancestor fs1 path dest Hwf1);
            [ | apply is_prefix_app | exact Hne].
          destruct Hex as [Hex | Hex].
          * apply is_dir_In in Hex. destruct Hex as [Hex | Hex]; [|now left].
            unfold dest in Hex. now destruct path.
          * right. now apply mem_path_In.
      - apply mkdir_inv in E2. destruct E2 as [_ [Hpar _]].
        unfold dest in Hpar. now rewrite removelast_last in Hpar. }
    apply is_dir_In in Hd. destruct Hd as [Hd | Hd]; [|exact Hd].
    unfold path in Hd. now destruct results_folder. }
  set (new := map (fun f => dest ++ [f]) written).
  assert (Hnew : forall q, In q new <-> exists f, In f written /\ q = dest ++ [f]).
  { intros q. unfold new. rewrite in_map_iff. split; intros [f [Ha Hb]];
      exists f; auto. }
  split; [now apply export_to_csv_folder_wf|].
  split; [exact Hd2|]. split.
  - intros q Hq Hne. destruct (Hbelow q Hq Hne) as [Hnd Hnf].
    split; [exact Hnd|]. unfold export_to_csv_folder. simpl. fold new.
    rewrite in_app_iff, filter_In, <- Hnew. tauto.
  - intros q Hq. destruct (Hframe q Hq) as [Hfd Hff].
    unfold export_to_csv_folder. simpl. fold new. split.
    + rewrite in_app_iff, filter_In, negb_true_iff, mem_path_false, Hff, Hfiles.
      assert (Hnot : ~ In q new).
      { intros Hin. apply Hnew in Hin. destruct Hin as [f [_ ->]].
        rewrite is_prefix_app in Hq. discriminate Hq. }
      tauto.
    + rewrite Hfd, Hdirs. split; [tauto|].
      intros [Hin | ->]; [now left|]. apply Hdirs. exact Hpath.
Qed.

(** X17.  An export goes through whenever the results folder is a
    directory and neither the folder of the network nor the folder of the
    model is a file; the two folders are made if they are missing. *)
Theorem export_files_succeeds results_folder network_name model_name written fs :
  plain_name (drop_last3 network_name) = true ->
  plain_name model_name = true ->
  wf_fs fs = true ->
  is_dir fs results_folder = true ->
  is_file fs (results_folder ++ [drop_last3 network_name]) = false ->
  is_file fs (export_path results_folder network_name model_name) = false ->
  exists fs', export_files results_folder network_name model_name written fs = inr fs'.
Proof.
  intros _ _ Hwf HR Hf1 Hf2. unfold export_files, export_path in *. cbv zeta.
  set (path := results_folder ++ [drop_last3 network_name]) in *.
  set (dest := path ++ [model_name]) in *.
  assert (S1 : exists fs1, init_directory path false fs = inr fs1
                           /\ is_dir fs1 path = true
                           /\ is_file fs1 dest = false).
  { unfold init_directory. destruct (path_exists fs path) eqn:Hex.
    - exists fs. split; [reflexivity|]. split; [|exact Hf2].
      unfold path_exists in Hex. rewrite Hf1, orb_false_r in Hex. exact Hex.
    - unfold mkdir. rewrite Hex. unfold path. rewrite removelast_last, HR.
      eexists. split; [reflexivity|]. split; [|exact Hf2].
      apply is_dir_In. simpl. tauto. }
  destruct S1 as [fs1 [E1 [Hd1 Hf1']]]. rewrite E1.
  assert (S2 : exists fs2, init_directory dest true fs1 = inr fs2).
  { assert (Hne : dest <> []) by (unfold dest; now destruct path).
    unfold init_directory. destruct (path_exists fs1 dest) eqn:Hex.
    - unfold path_exists in Hex. rewrite Hf1', orb_false_r in Hex.
      unfold rmtree. rewrite Hex. unfold mkdir.
      set (fs1' := mkFS (filter (fun q => negb (is_prefix dest q)) (dirs fs1))
                        (filter (fun q => negb (is_prefix dest q)) (files fs1))).
      assert (Hgone : path_exists fs1' dest = false).
      { apply path_exists_false. split; [exact Hne|]. unfold fs1'. simpl.
        split; intros Hin; apply filter_In in Hin; destruct Hin as [_ Hp];
          rewrite is_prefix_refl in Hp; discriminate Hp. }
      rewrite Hgone. unfold dest at 1. rewrite removelast_last.
      assert (Hpar : is_dir fs1' path = true).
      { apply is_dir_In in Hd1. apply is_dir_In. destruct Hd1 as [E | Hin];
          [now left|]. right. unfold fs1'. simpl. apply filter_In.
        split; [exact Hin|]. unfold dest. now rewrite is_prefix_snoc_parent. }
      rewrite Hpar. eexists. reflexivity.
    - unfold mkdir. rewrite Hex. unfold dest at 1. rewrite removelast_last, Hd1.
      eexists. reflexivity. }
  destruct S2 as [fs2 E2]. rewrite E2. eexists. reflexivity.
Qed.

Lemma export_files_post_witness :
  plain_name (drop_last3 "net.nc") = true
  /\ plain_name "market_model" = true
  /\ wf_fs sample_disk = true
  /\ exists fs',
       export_files ["elec"; "results_redispatch"]%string "net.nc" "market_model"
                    ["buses.csv"%string] sample_disk = inr fs'
       /\ (In ["elec"; "results_redispatch"; "net"; "market_model"; "stale.csv"]%string
              (files fs')
           <-> exists f, In f ["buses.csv"%string]
                         /\ ["elec"; "results_redispatch"; "net"; "market_model";
                             "stale.csv"]%string
                            = export_path ["elec"; "results_redispatch"]%string
                                          "net.nc" "market_model" ++ [f]).
Proof.
  assert (H1 : plain_name (drop_last3 "net.nc") = true) by reflexivity.
  assert (H2 : plain_name "market_model" = true) by reflexivity.
  assert (H3 : wf_fs sample_disk = true) by reflexivity.
  split; [exact H1|]. split; [exact H2|]. split; [exact H3|].
  destruct (export_files ["elec"; "results_redispatch"]%string "net.nc" "market_model"
                         ["buses.csv"%string] sample_disk) as [err|fs'] eqn:E;
    [discriminate E|].
  exists fs'. split; [reflexivity|].
  destruct (@export_files_post _ _ _ _ _ _ H1 H2 H3 E) as [_ [_ [Hbelow _]]].
  apply Hbelow; [reflexivity | discriminate].
Defined.

Lemma export_files_succeeds_witness :
  plain_name (drop_last3 "net.nc") = true
  /\ plain_name "network_model" = true
  /\ wf_fs sample_disk = true
  /\ is_dir sample_disk ["elec"; "results_redispatch"]%string = true
  /\ exists fs',
       export_files ["elec"; "results_redispatch"]%string "net.nc" "network_model"
                    ["buses.csv"%string] sample_disk = inr fs'.
Proof.
  assert (H1 : plain_name (drop_last3 "net.nc") = true) by reflexivity.
  assert (H2 : plain_name "network_model" = true) by reflexivity.
  assert (H3 : wf_fs sample_disk = true) by reflexivity.
  assert (H4 : is_dir sample_disk ["elec"; "results_redispatch"]%string = true)
    by reflexivity.
  split; [exact H1|]. split; [exact H2|]. split; [exact H3|]. split; [exact H4|].
  exact (@export_files_succeeds ["elec"; "results_redispatch"]%string "net.nc"
           "network_model" ["buses.csv"%string] sample_disk H1 H2 H3 H4
           eq_refl eq_refl).
Defined.

(** ** The three exports of a run *)

Lemma is_prefix_sibling (p r : Path) (a b : string) :
  a <> b -> is_prefix (p ++ [a]) ((p ++ [b]) ++ r) = false.
Proof.
  intros Hne. destruct (is_prefix (p ++ [a]) ((p ++ [b]) ++ r)) eqn:E;
    [|reflexivity].
  apply is_prefix_spec in E. destruct E as [r' E].
  rewrite <- !app_assoc in E. apply app_inv_head in E. inversion E. congruence.
Qed.

Lemma is_prefix_longer (p q : Path) :
  (length q < length p)%nat -> is_prefix p q = false.
Proof.
  intros H. destruct (is_prefix p q) eqn:E; [|reflexivity].
  apply is_prefix_length in E. lia.
Qed.

Lemma stage_name_inj (s s' : Stage) : stage_name s = stage_name s' -> s = s'.
Proof. destruct s, s'; simpl; intros H; try reflexivity; discriminate H. Qed.

Lemma is_file_In (fs : FileSystem) (q : Path) : is_file fs q = true <-> In q (files fs).
Proof. apply mem_path_In. Qed.

Lemma is_file_ext (fs fs' : FileSystem) (q : Path) :
  (In q (files fs') <-> In q (files fs)) -> is_file fs' q = is_file fs q.
Proof.
  intros H. destruct (is_file fs q) eqn:E.
  - apply is_file_In. apply H. now apply is_file_In.
  - destruct (is_file fs' q) eqn:E'; [|reflexivity].
    apply is_file_In, H, is_file_In in E'. congruence.
Qed.

Section Exports.

Variable results_folder : Path.
Variable network_name : string.
Hypothesis Hplain : plain_name (drop_last3 network_name) = true.
Hypothesis Hroot : results_folder <> [].

Let path := results_folder ++ [drop_last3 network_name].
Let dest (s : Stage) := export_path results_folder network_name (stage_name s).

(** One export of a run: it goes through, and leaves the file system fit
    for the next one. *)
Lemma export_step (s : Stage) (w : list string) (fs : FileSystem) :
  wf_fs fs = true ->
  is_dir fs results_folder = true ->
  is_file fs path = false ->
  is_file fs (dest s) = false ->
  exists fs',
    export_files results_folder network_name (stage_name s) w fs = inr fs'
    /\ wf_fs fs' = true
    /\ is_dir fs' results_folder = true
    /\ (forall q, is_prefix (dest s) q = false -> is_file fs' q = is_file fs q)
    /\ folder_holds fs' (dest s) w.
Proof.
  intros Hwf HR Hf1 Hf2.
  assert (Hs : plain_name (stage_name s) = true) by now destruct s.
  destruct (export_files_succeeds results_folder network_name (stage_name s) w fs
              Hplain Hs Hwf HR Hf1 Hf2) as [fs' E].
  exists fs'. split; [exact E|].
  destruct (export_files_post results_folder network_name (stage_name s) w fs
              Hplain Hs Hwf E) as [Hwf' [_ [Hbelow Hframe]]].
  split; [exact Hwf'|]. split; [|split].
  - apply is_dir_In in HR. destruct HR as [HR | HR]; [contradiction|].
    apply is_dir_In. right. apply (Hframe results_folder); [|now left].
    apply is_prefix_longer. unfold export_path. rewrite !length_app. simpl. lia.
  - intros q Hq. apply is_file_ext. now apply Hframe.
  - intros q Hq Hne. now apply Hbelow.
Qed.

Lemma dest_sibling (s s' : Stage) (q : Path) :
  s <> s' -> is_prefix (dest s') q = true -> is_prefix (dest s) q = false.
Proof.
  intros Hne Hq. apply is_prefix_spec in Hq. destruct Hq as [r ->].
  unfold dest, export_path. apply is_prefix_sibling.
  intros E. apply Hne. now apply stage_name_inj.
Qed.

Lemma folder_holds_kept (fs fs' : FileSystem) (s s' : Stage) (w : list string) :
  s <> s' ->
  (forall q, is_prefix (dest s) q = false -> is_file fs' q = is_file fs q) ->
  folder_holds fs (dest s') w -> folder_holds fs' (dest s') w.
Proof.
  intros Hne Hsame Hh q Hq Hneq. rewrite <- (Hh q Hq Hneq), <- !is_file_In.
  now rewrite (Hsame q (dest_sibling q Hne Hq)).
Qed.

End Exports.

(** X18.  [set_folder_paths] returns the folder [results_redispatch] under
    the folder path, as a directory, when the folder path is a directory
    and nothing but a directory is in the way; no file is touched and
    earlier results stay.  When the folder path does not exist (and so
    neither does the results folder) it raises. *)
Theorem set_folder_paths_post folder_path fs :
  wf_fs fs = true ->
  is_file fs (folder_path ++ ["results_redispatch"%string]) = false ->
  if is_dir fs folder_path
  then exists fs',
         set_folder_paths folder_path fs
         = inr (folder_path ++ ["results_redispatch"%string], fs')
         /\ wf_fs fs' = true
         /\ is_dir fs' (folder_path ++ ["results_redispatch"%string]) = true
         /\ files fs' = files fs
         /\ incl (dirs fs) (dirs fs')
  else exists err, set_folder_paths folder_path fs = inl err.
Proof.
  intros Hwf Hfile. unfold set_folder_paths. cbv zeta.
  set (R := folder_path ++ ["results_redispatch"%string]) in *.
  destruct (is_dir fs folder_path) eqn:Hd.
  - destruct (path_exists fs R) eqn:Hex.
    + unfold init_directory. rewrite Hex. exists fs.
      split; [reflexivity|]. split; [exact Hwf|].
      unfold path_exists in Hex. rewrite Hfile, orb_false_r in Hex.
      split; [exact Hex|]. split; [reflexivity | apply incl_refl].
    + destruct (init_directory_errors R fs) as [Hnew _].
      specialize (Hnew Hex false). unfold R in Hnew at 1.
      rewrite removelast_last, Hd in Hnew. fold R in Hnew. rewrite Hnew.
      eexists. split; [reflexivity|].
      split; [apply (init_directory_post R false fs Hwf Hnew)|].
      split; [apply is_dir_In; simpl; tauto|].
      split; [reflexivity | intros q Hq; now right].
  - assert (Hex : path_exists fs R = false).
    { destruct (path_exists fs R) eqn:Hex; [|reflexivity].
      unfold path_exists in Hex. rewrite Hfile, orb_false_r in Hex.
      apply is_dir_In in Hex. destruct Hex as [Hex | Hex];
        [unfold R in Hex; now destruct folder_path|].
      rewrite (@wf_fs_ancestor fs folder_path R Hwf) in Hd;
        [discriminate | now left | apply is_prefix_app |].
      intros E. apply (f_equal (@length string)) in E. unfold R in E.
      rewrite length_app in E. simpl in E. lia. }
    destruct (init_directory_errors R fs) as [Hnew _].
    specialize (Hnew Hex false). unfold R in Hnew at 1.
    rewrite removelast_last, Hd in Hnew. fold R in Hnew.
    destruct Hnew as [err Herr]. rewrite Herr. now exists err.
Qed.

Lemma set_folder_paths_post_witness :
  wf_fs sample_disk = true
  /\ is_file sample_disk (["elec"%string] ++ ["results_redispatch"%string]) = false
  /\ exists fs',
       set_folder_paths ["elec"%string] sample_disk
       = inr (["elec"; "results_redispatch"]%string, fs')
       /\ files fs' = files sample_disk.
Proof.
  assert (H1 : wf_fs sample_disk = true) by reflexivity.
  assert (H2 : is_file sample_disk (["elec"%string] ++ ["results_redispatch"%string])
               = false) by reflexivity.
  split; [exact H1|]. split; [exact H2|].
  pose proof (@set_folder_paths_post ["elec"%string] sample_disk H1 H2) as H.
  change (is_dir sample_disk ["elec"%string]) with true in H. cbv iota in H.
  destruct H as [fs' [E [_ [_ [Hf _]]]]].
  exists fs'. split; [exact E | exact Hf].
Defined.

(** X19.  A run that ends normally leaves, for each of the three models,
    a folder [results_redispatch/<network>/<model>] that holds exactly the
    files of that model's export: results of an earlier run are gone from
    all three, and a later export does not disturb an earlier one.  This
    needs the folder path to be a directory and no file where a folder
    must be. *)
Theorem run_leaves_artifacts optimize input sv settings folder_path network_name
    written fs :
  let r := init optimize input sv settings in
  let results_folder := folder_path ++ ["results_redispatch"%string] in
  outcome r = inr tt ->
  plain_name (drop_last3 network_name) = true ->
  wf_fs fs = true ->
  is_dir fs folder_path = true ->
  is_file fs results_folder = false ->
  is_file fs (results_folder ++ [drop_last3 network_name]) = false ->
  (forall s, is_file fs (export_path results_folder network_name (stage_name s)) = false) ->
  exists fs',
    run_files folder_path network_name written (trace r) fs = inr fs'
    /\ wf_fs fs' = true
    /\ forall s, folder_holds fs' (export_path results_folder network_name (stage_name s))
                              (written (stage_name s)).
Proof.
  intros r R Hout Hplain Hwf Hd HfR Hfp Hfd.
  assert (Htrace : trace r = events_before sv (snd (set_solver sv settings))
                                           RedispatchModelStage
                             ++ stage_events sv (snd (set_solver sv settings))
                                             RedispatchModelStage).
  { now apply (proj2 (run_is_prefix_of_complete_run optimize input sv settings)). }
  pose proof (set_folder_paths_post folder_path fs Hwf HfR) as Hset.
  rewrite Hd in Hset. destruct Hset as [fs0 [Eset [Hwf0 [HR0 [Hfiles0 _]]]]].
  fold R in Eset, HR0.
  assert (HRne : R <> []) by (unfold R; now destruct folder_path).
  assert (Hsame0 : forall q, is_file fs0 q = is_file fs q)
    by (intros q; unfold is_file; now rewrite Hfiles0).
  unfold run_files. rewrite Eset, Htrace. simpl.
  set (path := R ++ [drop_last3 network_name]) in *.
  assert (Hlong : forall s, is_prefix (export_path R network_name (stage_name s)) path
                            = false).
  { intros s. apply is_prefix_longer. unfold export_path, path.
    rewrite !length_app. simpl. lia. }
  (* network model *)
  destruct (@export_step R network_name Hplain HRne NetworkModelStage
              (written "network_model"%string) fs0 Hwf0 HR0)
    as [fs1 [E1 [Hwf1 [HR1 [Hsame1 Hh1]]]]];
    [fold path; rewrite Hsame0; exact Hfp
    | rewrite Hsame0; exact (Hfd NetworkModelStage)|].
  simpl stage_name in E1. rewrite E1.
  (* market model *)
  destruct (@export_step R network_name Hplain HRne MarketModelStage
              (written "market_model"%string) fs1 Hwf1 HR1)
    as [fs2 [E2 [Hwf2 [HR2 [Hsame2 Hh2]]]]].
  { fold path. rewrite (Hsame1 _ (Hlong NetworkModelStage)), Hsame0. exact Hfp. }
  { rewrite Hsame1, Hsame0; [exact (Hfd MarketModelStage)|].
    apply (@dest_sibling R network_name NetworkModelStage MarketModelStage);
      [discriminate | apply is_prefix_refl]. }
  simpl stage_name in E2. rewrite E2.
  (* redispatch model *)
  destruct (@export_step R network_name Hplain HRne RedispatchModelStage
              (written "redispatch_model"%string) fs2 Hwf2 HR2)
    as [fs3 [E3 [Hwf3 [HR3 [Hsame3 Hh3]]]]].
  { fold path. rewrite (Hsame2 _ (Hlong MarketModelStage)),
      (Hsame1 _ (Hlong NetworkModelStage)), Hsame0. exact Hfp. }
  { rewrite Hsame2, Hsame1, Hsame0; [exact (Hfd RedispatchModelStage) | |].
    - apply (@dest_sibling R network_name NetworkModelStage RedispatchModelStage);
        [discriminate | apply is_prefix_refl].
    - apply (@dest_sibling R network_name MarketModelStage RedispatchModelStage);
        [discriminate | apply is_prefix_refl]. }
  simpl stage_name in E3. rewrite E3.
  exists fs3. split; [reflexivity|]. split; [exact Hwf3|].
  intros s. destruct s; simpl stage_name.
  - apply (@folder_holds_kept R network_name fs2 fs3 RedispatchModelStage
             NetworkModelStage); [discriminate | exact Hsame3|].
    apply (@folder_holds_kept R network_name fs1 fs2 MarketModelStage
             NetworkModelStage); [discriminate | exact Hsame2 | exact Hh1].
  - apply (@folder_holds_kept R network_name fs2 fs3 RedispatchModelStage
             MarketModelStage); [discriminate | exact Hsame3 | exact Hh2].
  - exact Hh3.
Qed.

Lemma run_leaves_artifacts_witness :
  outcome (init Sample.solver_ok Sample.nodal "gurobi" (PyStr "default")) = inr tt
  /\ plain_name (drop_last3 "net.nc") = true
  /\ wf_fs sample_disk = true
  /\ is_dir sample_disk ["elec"%string] = true
  /\ exists fs',
       run_files ["elec"%string] "net.nc" sample_written
         (trace (init Sample.solver_ok Sample.nodal "gurobi" (PyStr "default")))
         sample_disk = inr fs'
       /\ ~ In ["elec"; "results_redispatch"; "net"; "market_model"; "stale.csv"]%string
              (files fs').
Proof.
  assert (H1 : outcome (init Sample.solver_ok Sample.nodal "gurobi" (PyStr "default"))
               = inr tt) by reflexivity.
  assert (H2 : plain_name (drop_last3 "net.nc") = true) by reflexivity.
  assert (H3 : wf_fs sample_disk = true) by reflexivity.
  assert (H4 : is_dir sample_disk ["elec"%string] = true) by reflexivity.
  assert (H5 : forall s,
             is_file sample_disk
               (export_path (["elec"%string] ++ ["results_redispatch"%string])
                            "net.nc" (stage_name s)) = false)
    by (intros s; destruct s; reflexivity).
  split; [exact H1|]. split; [exact H2|]. split; [exact H3|]. split; [exact H4|].
  destruct (@run_leaves_artifacts Sample.solver_ok Sample.nodal "gurobi"
              (PyStr "default") ["elec"%string] "net.nc" sample_written sample_disk
              H1 H2 H3 H4 eq_refl eq_refl H5) as [fs' [E [_ Hh]]].
  exists fs'. split; [exact E|].
  intros Hin. apply (Hh MarketModelStage) in Hin; [|reflexivity | discriminate].
  destruct Hin as [f [[<- | [<- | []]] Heq]]; discriminate Heq.
Defined.
